(** * Eytzinger-layout lower bound (src/cpp/eytzinger.hpp)

    A shallow embedding of the header: the [lg] helper, the class
    [Eytzinger] (layout builder, four lower-bound queries, [get_value]) and
    the two reference searches [naive_binary_search] and [std_lower_bound].

    C++ [int] is 32 bits and [long] 64 bits (LP64).  Integers are [Z];
    every signed operation that would leave its type, every shift by a count
    outside the width and every vector access outside the bounds is
    undefined behaviour and ends the computation as [Undefined].  Loops and
    the recursion of the builder carry a fuel counter. *)

From Stdlib Require Import ZArith Lia Sorted.
From stdpp Require Import base tactics numbers option list sorting.

Local Open Scope Z_scope.

(** ** Machine integers *)

Definition INT_MIN : Z := - 2 ^ 31.
Definition INT_MAX : Z := 2 ^ 31 - 1.
Definition LONG_MIN : Z := - 2 ^ 63.
Definition LONG_MAX : Z := 2 ^ 63 - 1.

(** Conversion to [int] keeps the low 32 bits (two's complement). *)
Definition to_int (z : Z) : Z := (z + 2 ^ 31) `mod` 2 ^ 32 - 2 ^ 31.

(** Conversion to [size_t] (64 bits, unsigned). *)
Definition to_size_t (z : Z) : Z := z `mod` 2 ^ 64.

(** ** Outcomes of a computation

    [Done a reads]: the code returned [a] after reading the vector elements
    at the indices [reads], in that order.  [Undefined]: undefined behaviour
    (or an exception).  [OutOfFuel]: the fuel of the model ran out. *)

Inductive outcome (A : Type) : Type :=
  | Done (a : A) (reads : list Z)
  | Undefined
  | OutOfFuel.
Arguments Done {A} a reads.
Arguments Undefined {A}.
Arguments OutOfFuel {A}.

#[global] Instance outcome_ret : MRet outcome := λ A a, Done a [].
#[global] Instance outcome_bind : MBind outcome := λ A B f m,
  match m with
  | Done a r =>
      match f a with
      | Done b r' => Done b (r ++ r')
      | Undefined => Undefined
      | OutOfFuel => OutOfFuel
      end
  | Undefined => Undefined
  | OutOfFuel => OutOfFuel
  end.

(** [m] returns [a], whatever it read. *)
Definition returns {A} (m : outcome A) (a : A) : Prop := ∃ reads, m = Done a reads.

(** The value of an [int] expression: undefined on overflow. *)
Definition int_arith (z : Z) : outcome Z :=
  if decide (INT_MIN ≤ z ≤ INT_MAX) then mret z else Undefined.

(** The value of a [long] expression: undefined on overflow. *)
Definition long_arith (z : Z) : outcome Z :=
  if decide (LONG_MIN ≤ z ≤ LONG_MAX) then mret z else Undefined.

(** [k >> s] on an [int]: undefined unless [0 <= s < 32]. *)
Definition shr_int (k s : Z) : outcome Z :=
  if decide (0 ≤ s < 32) then mret (k ≫ s) else Undefined.

(** [k >> s] on a [long]: undefined unless [0 <= s < 64]. *)
Definition shr_long (k s : Z) : outcome Z :=
  if decide (0 ≤ s < 64) then mret (k ≫ s) else Undefined.

(** [v[i]] read: undefined outside [0 <= i < v.size()]; the read is logged. *)
Definition vec_get (v : list Z) (i : Z) : outcome Z :=
  if decide (0 ≤ i) then
    match v !! Z.to_nat i with
    | Some a => Done a [i]
    | None => Undefined
    end
  else Undefined.

(** [v[i] = a]: undefined outside [0 <= i < v.size()]. *)
Definition vec_set (v : list Z) (i a : Z) : outcome (list Z) :=
  if decide (0 ≤ i < Z.of_nat (length v)) then mret (<[Z.to_nat i := a]> v)
  else Undefined.

(** [__builtin_prefetch(addr)]: a hint, no read and no effect. *)
Definition builtin_prefetch (v : list Z) (i : Z) : outcome unit := mret ().

(** [__builtin_clz] on a 32-bit value: the number of zero bits above the
    highest set bit (scanning from bit [bits - 1] down).  The builtin is
    undefined at 0; [lg] guards that case. *)
Fixpoint clz_from (bits : nat) (v : Z) : Z :=
  match bits with
  | O => 0
  | S b => if Z.testbit v (Z.of_nat b) then 0 else 1 + clz_from b v
  end.
Definition builtin_clz (v : Z) : Z := clz_from 32 v.

(** [__builtin_ffs] on a 32-bit value: one plus the index of the lowest set
    bit, 0 when no bit is set (scanning [bits] bits from bit [i] up). *)
Fixpoint ffs_from (bits : nat) (i : Z) (v : Z) : Z :=
  match bits with
  | O => 0
  | S b => if Z.testbit v i then i + 1 else ffs_from b (i + 1) v
  end.
Definition builtin_ffs (v : Z) : Z := ffs_from 32 0 v.

(** ** [lg] *)

Definition lg (n : Z) : Z :=
  if decide (n = 0) then -1 else 31 - builtin_clz n.

(** ** class Eytzinger *)

Record Eytzinger : Type := { t : list Z; n : Z; iters : Z }.

(** The recursion depth of the builder and the trip count of the [while]
    loops are below 32: [k] starts at 1, doubles at every level, and stays
    an [int]. *)
Definition depth_fuel : nat := 32.

(** [Eytzinger::eytzinger(arr, i, k)]: the member [t] is threaded through;
    the result is the new [t] and the returned cursor. *)
Fixpoint eytzinger (fuel : nat) (n_ : Z) (arr t_ : list Z) (i k : Z)
  : outcome (list Z * Z) :=
  match fuel with
  | O => OutOfFuel
  | S fuel =>
      if decide (k ≤ n_) then
        k2 ← int_arith (2 * k);
        '(t1, i1) ← eytzinger fuel n_ arr t_ i k2;
        a ← vec_get arr i1;
        i2 ← int_arith (i1 + 1);
        t2 ← vec_set t1 k a;
        k3 ← int_arith (2 * k + 1);
        eytzinger fuel n_ arr t2 i2 k3
      else mret (t_, i)
  end.

(** The constructor.  [t.resize(n + 1)] value-initialises the elements to 0;
    a negative [n + 1] converts to a [size_t] above [max_size()]. *)
Definition Eytzinger_new (sorted_array : list Z) : outcome Eytzinger :=
  let n_ := to_int (Z.of_nat (length sorted_array)) in
  n1 ← int_arith (n_ + 1);
  if decide (0 ≤ n1) then
    t0 ← vec_set (replicate (Z.to_nat n1) 0) 0 (-1);
    '(t1, _) ← eytzinger depth_fuel n_ sorted_array t0 0 1;
    mret {| t := t1; n := n_; iters := lg n1 |}
  else Undefined.

(** [k >>= __builtin_ffs(~k)] for an [int] [k]. *)
Definition restore_int (k : Z) : outcome Z :=
  shr_int k (builtin_ffs (Z.lnot k)).

(** [k >>= __builtin_ffs(~k)] for a [long] [k]: [~k] is converted to the
    [int] parameter of the builtin. *)
Definition restore_long (k : Z) : outcome Z :=
  shr_long k (builtin_ffs (to_int (Z.lnot k))).

(** The [while (k <= n)] loop of [lower_bound_original] ([int k]). *)
Fixpoint while_original (fuel : nat) (e : Eytzinger) (x k : Z) : outcome Z :=
  match fuel with
  | O => OutOfFuel
  | S fuel =>
      if decide (k ≤ n e) then
        a ← vec_get (t e) k;
        k' ← int_arith (2 * k + Z.b2z (bool_decide (a < x)));
        while_original fuel e x k'
      else mret k
  end.

Definition lower_bound_original (e : Eytzinger) (x : Z) : outcome Z :=
  k ← while_original depth_fuel e x 1;
  restore_int k.

(** The [for (int i = 0; i < iters; i++)] loop of [lower_bound_fixed_iter]
    ([long k]), [count] iterations. *)
Fixpoint for_fixed_iter (count : nat) (e : Eytzinger) (x k : Z) : outcome Z :=
  match count with
  | O => mret k
  | S count =>
      a ← vec_get (t e) k;
      k' ← long_arith (2 * k + Z.b2z (bool_decide (a < x)));
      for_fixed_iter count e x k'
  end.

Definition lower_bound_fixed_iter (e : Eytzinger) (x : Z) : outcome Z :=
  k ← for_fixed_iter (Z.to_nat (iters e)) e x 1;
  a ← vec_get (t e) (if decide (k ≤ n e) then k else 0);
  k' ← long_arith (2 * k + Z.b2z (bool_decide (a < x)));
  r ← restore_long k';
  mret (to_int r).

(** The prefetch of both prefetching variants:
    [__builtin_prefetch(t.data() + std::min(k * 16L, (long)t.size() - 1))]. *)
Definition prefetch_ahead (e : Eytzinger) (k : Z) : outcome unit :=
  a ← long_arith (k * 16);
  builtin_prefetch (t e) (a `min` (Z.of_nat (length (t e)) - 1)).

(** The loop of [lower_bound_prefetch] ([long k]). *)
Fixpoint while_prefetch (fuel : nat) (e : Eytzinger) (x k : Z) : outcome Z :=
  match fuel with
  | O => OutOfFuel
  | S fuel =>
      if decide (k ≤ n e) then
        _ ← prefetch_ahead e k;
        a ← vec_get (t e) k;
        k' ← long_arith (2 * k + Z.b2z (bool_decide (a < x)));
        while_prefetch fuel e x k'
      else mret k
  end.

Definition lower_bound_prefetch (e : Eytzinger) (x : Z) : outcome Z :=
  k ← while_prefetch depth_fuel e x 1;
  r ← restore_long k;
  mret (to_int r).

(** The loop of [lower_bound_fixed_iter_prefetch] ([int k]). *)
Fixpoint for_fixed_iter_prefetch (count : nat) (e : Eytzinger) (x k : Z)
  : outcome Z :=
  match count with
  | O => mret k
  | S count =>
      _ ← prefetch_ahead e k;
      a ← vec_get (t e) k;
      k' ← int_arith (2 * k + Z.b2z (bool_decide (a < x)));
      for_fixed_iter_prefetch count e x k'
  end.

Definition lower_bound_fixed_iter_prefetch (e : Eytzinger) (x : Z) : outcome Z :=
  k ← for_fixed_iter_prefetch (Z.to_nat (iters e)) e x 1;
  a ← vec_get (t e) (if decide (k ≤ n e) then k else 0);
  k' ← int_arith (2 * k + Z.b2z (bool_decide (a < x)));
  restore_int k'.

(** [get_value(index)]: the comparison converts [index] to [size_t]. *)
Definition get_value (e : Eytzinger) (index : Z) : outcome Z :=
  if decide (to_size_t index < Z.of_nat (length (t e))) then vec_get (t e) index
  else mret (-1).

(** [size()]: the [int] member [n], converted to [size_t]. *)
Definition Eytzinger_size (e : Eytzinger) : Z := to_size_t (n e).

(** ** Reference searches *)

(** The [while (high - low > 1)] loop of [naive_binary_search]. *)
Fixpoint while_naive (fuel : nat) (arr : list Z) (x low high : Z) : outcome Z :=
  match fuel with
  | O => OutOfFuel
  | S fuel =>
      d ← int_arith (high - low);
      if decide (d > 1) then
        s ← int_arith (high + low);
        let mid := s `quot` 2 in
        a ← vec_get arr mid;
        if decide (a < x) then while_naive fuel arr x mid high
        else while_naive fuel arr x low mid
      else mret high
  end.

Definition naive_binary_search (arr : list Z) (x : Z) : outcome Z :=
  match arr with
  | [] => mret 0
  | _ =>
      a ← vec_get arr 0;
      if decide (a >= x) then mret 0
      else while_naive depth_fuel arr x 0 (to_int (Z.of_nat (length arr)))
  end.

(** [std::lower_bound] is the standard library's: the bisection of
    libstdc++ over the range [first, first + len), on [ptrdiff_t]
    (64 bits, so at most 64 halvings). *)
Fixpoint std_lower_bound_loop (fuel : nat) (arr : list Z) (x first len : Z)
  : outcome Z :=
  match fuel with
  | O => OutOfFuel
  | S fuel =>
      if decide (len > 0) then
        let half := len ≫ 1 in
        let middle := first + half in
        a ← vec_get arr middle;
        if decide (a < x) then
          std_lower_bound_loop fuel arr x (middle + 1) (len - half - 1)
        else std_lower_bound_loop fuel arr x first half
      else mret first
  end.

Definition std_lower_bound (arr : list Z) (x : Z) : outcome Z :=
  r ← std_lower_bound_loop 64 arr x 0 (Z.of_nat (length arr));
  mret (to_int r).

(** ** Specification vocabulary *)

(** The 0-based rank of [x] in [arr]: the number of elements below [x]. *)
Definition rank (arr : list Z) (x : Z) : Z :=
  Z.of_nat (length (filter (λ a, a < x) arr)).

(** The first element of [arr] that is not less than [x]. *)
Definition first_not_less (arr : list Z) (x : Z) : option Z :=
  head (filter (λ a, ¬ a < x) arr).

(** The in-order walk of the implicit tree on the indices [1..N]: the
    children of [k] are [2k] and [2k+1]. *)
Fixpoint inorder_walk (fuel : nat) (N k : Z) : list Z :=
  match fuel with
  | O => []
  | S fuel =>
      if decide (k ≤ N) then
        inorder_walk fuel N (2 * k) ++ k :: inorder_walk fuel N (2 * k + 1)
      else []
  end.

(** The walk from the root; a tree on [N] nodes is less than [N] deep. *)
Definition inorder (N : Z) : list Z := inorder_walk (Z.to_nat N) N 1.

(** [e] is the structure the constructor builds from [arr]. *)
Definition built (arr : list Z) (e : Eytzinger) : Prop :=
  returns (Eytzinger_new arr) e.

(** The sizes on which no [int] of the code overflows and no shift count
    reaches 32: the fixed-iteration queries leave their loop at an index
    [k <= 2N + 1] and then compute [2k + 1], which must stay below
    [INT_MAX] ([__builtin_ffs(~INT_MAX)] is 32). *)
Definition size_ok (arr : list Z) : Prop :=
  4 * Z.of_nat (length arr) + 3 < INT_MAX.

(** The value of [k >> __builtin_ffs(~k)], when the shift is defined. *)
Definition restore (k : Z) : Z := k ≫ builtin_ffs (Z.lnot k).

(** The subtree of [k] in the tree on [1..N] is at most [f] levels deep. *)
Definition deep_enough (N : Z) (f : nat) (k : Z) : Prop := N < k * 2 ^ Z.of_nat f.

(** The value stored at index [k]. *)
Definition store_val (e : Eytzinger) (k : Z) : Z := default 0 (t e !! Z.to_nat k).

(** The store index of the element of rank [r]: the [r]-th index of the
    in-order walk, and 0 when [r] is past the end. *)
Definition eytzinger_index (N r : Z) : Z := nth (Z.to_nat r) (inorder N) 0.

(** What the queries rely on in a built structure. *)
Record layout (arr : list Z) (e : Eytzinger) : Prop := {
  layout_size : 2 * Z.of_nat (length arr) + 1 < INT_MAX;
  layout_size4 : 4 * Z.of_nat (length arr) + 3 < INT_MAX;
  layout_n : n e = Z.of_nat (length arr);
  layout_length : length (t e) = S (length arr);
  layout_sentinel : t e !! 0%nat = Some (-1);
  layout_iters : iters e = Z.log2 (Z.of_nat (length arr) + 1);
  layout_inorder :
    (λ k, t e !! Z.to_nat k) <$> inorder (Z.of_nat (length arr)) = Some <$> arr
}.

(** The in-order walk of the subtree of [k] in the tree on [1..N]. *)
Definition subtree (N k : Z) : list Z := inorder_walk (Z.to_nat N) N k.

(** Position [j] of [arr] holds an element less than [x]. *)
Definition below (arr : list Z) (x j : Z) : Prop :=
  ∃ a, arr !! Z.to_nat j = Some a ∧ a < x.

(** Position [j] of [arr] holds no element less than [x]. *)
Definition not_below (arr : list Z) (x j : Z) : Prop :=
  ∀ a, arr !! Z.to_nat j = Some a → x ≤ a.

(** [r] is a boundary of [arr] for the key [x]: the element before position
    [r] is less than [x] and the element at position [r] is not (where
    these positions exist). *)
Definition boundary (arr : list Z) (x r : Z) : Prop :=
  0 ≤ r ≤ Z.of_nat (length arr)
  ∧ (0 < r → below arr x (r - 1))
  ∧ not_below arr x r.

(** * Proofs *)

(** ** The outcome monad *)

Lemma bind_Done {A B} (a : A) (r : list Z) (f : A → outcome B) :
  Done a r ≫= f =
  match f a with
  | Done b r' => Done b (r ++ r')
  | Undefined => Undefined
  | OutOfFuel => OutOfFuel
  end.
Proof. reflexivity. Qed.

Lemma bind_ret_l {A B} (a : A) (f : A → outcome B) : mret a ≫= f = f a.
Proof. change (mret a) with (Done a []). rewrite bind_Done. by destruct (f a). Qed.

Lemma bind_assoc {A B C} (m : outcome A) (f : A → outcome B) (g : B → outcome C) :
  (m ≫= f) ≫= g = m ≫= (λ a, f a ≫= g).
Proof.
  destruct m as [a r| |]; try reflexivity.
  rewrite !bind_Done. destruct (f a) as [b r'| |]; try reflexivity.
  rewrite !bind_Done. destruct (g b) as [c r''| |]; try reflexivity.
  by rewrite app_assoc.
Qed.

Lemma bind_ext {A B} (m : outcome A) (f g : A → outcome B) :
  (∀ a, f a = g a) → m ≫= f = m ≫= g.
Proof. intros E. destruct m; try reflexivity. rewrite !bind_Done. by rewrite E. Qed.

Lemma int_arith_ok z : INT_MIN ≤ z ≤ INT_MAX → int_arith z = mret z.
Proof. intros H. unfold int_arith. by rewrite decide_True. Qed.

Lemma long_arith_ok z : LONG_MIN ≤ z ≤ LONG_MAX → long_arith z = mret z.
Proof. intros H. unfold long_arith. by rewrite decide_True. Qed.

Lemma vec_get_ok (v : list Z) i a :
  0 ≤ i → v !! Z.to_nat i = Some a → vec_get v i = Done a [i].
Proof. intros H E. unfold vec_get. by rewrite decide_True, E. Qed.

Lemma vec_set_ok (v : list Z) i a :
  0 ≤ i < Z.of_nat (length v) → vec_set v i a = mret (<[Z.to_nat i := a]> v).
Proof. intros H. unfold vec_set. by rewrite decide_True. Qed.

Lemma to_int_id z : INT_MIN ≤ z ≤ INT_MAX → to_int z = z.
Proof.
  unfold INT_MIN, INT_MAX, to_int. intros H.
  rewrite Z.mod_small; lia.
Qed.

Lemma int_bounds : INT_MIN = -2147483648 ∧ INT_MAX = 2147483647.
Proof. split; reflexivity. Qed.

(** ** Bit scans *)

Lemma clz_from_log2 (b : nat) v :
  0 < v < 2 ^ Z.of_nat b → Z.of_nat b - 1 - clz_from b v = Z.log2 v.
Proof.
  revert v. induction b as [|b IH]; intros v [Hpos Hlt].
  - change (2 ^ Z.of_nat 0) with 1 in Hlt. lia.
  - rewrite Nat2Z.inj_succ, Z.pow_succ_r in Hlt by lia.
    cbn [clz_from]. destruct (Z.testbit v (Z.of_nat b)) eqn:Hb.
    + symmetry. replace (Z.of_nat (S b) - 1 - 0) with (Z.of_nat b) by lia.
      apply Z.log2_unique; [lia|]. split; [|rewrite Z.pow_succ_r; lia].
      destruct (decide (2 ^ Z.of_nat b ≤ v)) as [|Hn]; [done|].
      rewrite Z.bits_above_log2 in Hb; [done|lia|].
      apply Z.log2_lt_pow2; lia.
    + rewrite <- IH.
      * lia.
      * split; [done|].
        destruct (decide (v < 2 ^ Z.of_nat b)) as [|Hn]; [done|].
        assert (Z.log2 v = Z.of_nat b) as E.
        { apply Z.log2_unique; [lia|]. rewrite Z.pow_succ_r; lia. }
        rewrite <- E, Z.bit_log2 in Hb; [done|lia].
Qed.

Lemma lg_log2 v : 0 < v ≤ INT_MAX → lg v = Z.log2 v.
Proof.
  intros Hv. unfold lg, builtin_clz. rewrite decide_False by lia.
  rewrite <- (clz_from_log2 32 v); [lia|].
  unfold INT_MAX in Hv. change (2 ^ Z.of_nat 32) with (2 ^ 32). lia.
Qed.

Lemma ffs_from_S b i v :
  ffs_from (S b) i v = if Z.testbit v i then i + 1 else ffs_from b (i + 1) v.
Proof. reflexivity. Qed.

Lemma ffs_from_nonneg b i v : 0 ≤ i → 0 ≤ ffs_from b i v.
Proof.
  revert i. induction b as [|b IH]; intros i Hi; cbn [ffs_from]; [lia|].
  destruct (Z.testbit v i); [lia|]. apply IH. lia.
Qed.

Lemma ffs_from_more b i v :
  ffs_from b i v ≠ 0 → ffs_from (S b) i v = ffs_from b i v.
Proof.
  revert i. induction b as [|b IH]; intros i H; [done|].
  cbn [ffs_from] in *. destruct (Z.testbit v i); [done|].
  specialize (IH _ H). by cbn [ffs_from] in IH.
Qed.

Lemma ffs_from_found b i j v :
  0 ≤ i ≤ j → j < i + Z.of_nat b → Z.testbit v j = true →
  i < ffs_from b i v ≤ j + 1.
Proof.
  revert i. induction b as [|b IH]; intros i Hi Hj Hb; [lia|].
  cbn [ffs_from]. destruct (Z.testbit v i) eqn:E; [lia|].
  assert (i ≠ j) by congruence.
  specialize (IH (i + 1) ltac:(lia) ltac:(lia) Hb). lia.
Qed.

Lemma ffs_from_double b i v :
  0 ≤ i →
  ffs_from b (i + 1) (2 * v) =
  if decide (ffs_from b i v = 0) then 0 else ffs_from b i v + 1.
Proof.
  revert i. induction b as [|b IH]; intros i Hi; [done|].
  cbn [ffs_from]. replace (i + 1) with (Z.succ i) at 1 by lia.
  rewrite Z.double_bits_succ.
  destruct (Z.testbit v i).
  - rewrite decide_False by lia. lia.
  - apply IH. lia.
Qed.

(** A value below [2^b - 1] has a zero bit among its low [b] bits. *)
Lemma zero_bit_below (b : nat) k :
  0 ≤ k < 2 ^ Z.of_nat b - 1 →
  ∃ j, 0 ≤ j < Z.of_nat b ∧ Z.testbit k j = false.
Proof.
  revert k. induction b as [|b IH]; intros k Hk.
  - change (2 ^ Z.of_nat 0) with 1 in Hk. lia.
  - rewrite Nat2Z.inj_succ, Z.pow_succ_r in Hk by lia.
    destruct (Z.testbit k 0) eqn:E0.
    + destruct (IH (k / 2)) as (j & Hj & Hb).
      { apply Z.testbit_true in E0; [|lia].
        change (2 ^ 0) with 1 in E0. rewrite Z.div_1_r in E0.
        Z.div_mod_to_equations. lia. }
      exists (Z.succ j). split; [lia|].
      by rewrite <- Z.div2_bits by lia.
    + exists 0. split; [lia|done].
Qed.

Lemma ffs_lnot_range k :
  0 ≤ k < INT_MAX → 0 < builtin_ffs (Z.lnot k) < 32.
Proof.
  intros Hk. destruct (zero_bit_below 31 k) as (j & Hj & Hb).
  { unfold INT_MAX in Hk. change (2 ^ Z.of_nat 31) with (2 ^ 31). lia. }
  unfold builtin_ffs.
  pose proof (ffs_from_found 32 0 j (Z.lnot k)) as H.
  rewrite Z.lnot_spec, Hb in H by lia.
  specialize (H ltac:(lia) ltac:(lia) eq_refl). lia.
Qed.

Lemma restore_even k : restore (2 * k) = k.
Proof.
  unfold restore, builtin_ffs. rewrite (ffs_from_S 31).
  replace (Z.lnot (2 * k)) with (2 * (- k - 1) + 1) by (unfold Z.lnot; lia).
  rewrite Z.testbit_odd_0. rewrite Z.shiftr_div_pow2 by lia.
  change (2 ^ (0 + 1)) with 2. rewrite Z.mul_comm. apply Z.div_mul. lia.
Qed.

Lemma restore_odd k : 0 ≤ k → 2 * k + 1 < INT_MAX → restore (2 * k + 1) = restore k.
Proof.
  intros Hk Hlt. unfold restore, builtin_ffs.
  replace (Z.lnot (2 * k + 1)) with (2 * Z.lnot k) by (unfold Z.lnot; lia).
  rewrite (ffs_from_S 31), Z.testbit_even_0.
  destruct (zero_bit_below 30 k) as (j & Hj & Hb).
  { unfold INT_MAX in Hlt. change (2 ^ Z.of_nat 30) with (2 ^ 30). lia. }
  pose proof (ffs_from_found 31 0 j (Z.lnot k)) as H.
  rewrite Z.lnot_spec, Hb in H by lia.
  specialize (H ltac:(lia) ltac:(lia) eq_refl).
  rewrite (ffs_from_double 31 0) by lia. rewrite decide_False by lia.
  rewrite (ffs_from_more 31) by lia.
  set (s := ffs_from 31 0 (Z.lnot k)) in *.
  replace (s + 1) with (1 + s) by lia.
  rewrite <- Z.shiftr_shiftr by lia. f_equal.
  rewrite Z.shiftr_div_pow2 by lia. change (2 ^ 1) with 2.
  Z.div_mod_to_equations. lia.
Qed.

Lemma restore_int_ok k : 0 ≤ k < INT_MAX → restore_int k = mret (restore k).
Proof.
  intros Hk. unfold restore_int, shr_int.
  pose proof (ffs_lnot_range k Hk). by rewrite decide_True by lia.
Qed.

Lemma restore_long_ok k : 0 ≤ k < INT_MAX → restore_long k = mret (restore k).
Proof.
  intros Hk. unfold restore_long, shr_long.
  rewrite to_int_id by (unfold INT_MIN, INT_MAX, Z.lnot in *; lia).
  pose proof (ffs_lnot_range k Hk). by rewrite decide_True by lia.
Qed.

Lemma restore_range k : 0 ≤ k → 0 ≤ restore k ≤ k.
Proof.
  intros Hk. unfold restore.
  assert (0 ≤ builtin_ffs (Z.lnot k)) as Hs.
  { by apply ffs_from_nonneg. }
  rewrite Z.shiftr_div_pow2 by done. split.
  - apply Z.div_pos; lia.
  - apply Z.div_le_upper_bound; [lia|]. 
    assert (0 < 2 ^ builtin_ffs (Z.lnot k)) by (apply Z.pow_pos_nonneg; lia).
    nia.
Qed.

(** ** The implicit tree on the indices [1..N] *)

Section tree.
Context (N : Z).

Lemma deep_enough_child f k :
  1 ≤ k → k ≤ N → deep_enough N f k →
  ∃ f', f = S f' ∧ deep_enough N f' (2 * k) ∧ deep_enough N f' (2 * k + 1).
Proof.
  unfold deep_enough. intros Hk HkN Hf. destruct f as [|f'].
  - change (2 ^ Z.of_nat 0) with 1 in Hf. lia.
  - exists f'. rewrite Nat2Z.inj_succ, Z.pow_succ_r in Hf by lia.
    assert (0 < 2 ^ Z.of_nat f') by (apply Z.pow_pos_nonneg; lia).
    split; [done|]. nia.
Qed.

Lemma inorder_walk_S f k :
  inorder_walk (S f) N k =
  if decide (k ≤ N) then
    inorder_walk f N (2 * k) ++ k :: inorder_walk f N (2 * k + 1)
  else [].
Proof. reflexivity. Qed.

Lemma shiftr_half_le x d : 0 ≤ x → 1 ≤ d → x ≫ d ≤ x `div` 2.
Proof.
  intros Hx Hd. rewrite Z.shiftr_div_pow2 by lia.
  apply Z.div_le_compat_l; [done|]. split; [lia|].
  replace d with (Z.succ (d - 1)) by lia. rewrite Z.pow_succ_r by lia.
  assert (0 < 2 ^ (d - 1)) by (apply Z.pow_pos_nonneg; lia). lia.
Qed.

(** Every index of the walk below [k] is a descendant of [k]. *)
Lemma inorder_walk_elem f k j :
  1 ≤ k → j ∈ inorder_walk f N k →
  k ≤ j ≤ N ∧ ∃ m, 0 ≤ m ∧ j ≫ m = k.
Proof.
  revert k. induction f as [|f IH]; intros k Hk Hj.
  - by apply elem_of_nil in Hj.
  - rewrite inorder_walk_S in Hj. case_decide; [|by apply elem_of_nil in Hj].
    apply elem_of_app in Hj as [Hj|Hj]; [|apply elem_of_cons in Hj as [->|Hj]].
    + apply IH in Hj as (? & m & Hm & E); [|lia]. split; [lia|].
      exists (m + 1). split; [lia|].
      rewrite <- Z.shiftr_shiftr, E, Z.shiftr_div_pow2 by lia.
      change (2 ^ 1) with 2. Z.div_mod_to_equations. lia.
    + split; [lia|]. exists 0. split; [lia|apply Z.shiftr_0_r].
    + apply IH in Hj as (? & m & Hm & E); [|lia]. split; [lia|].
      exists (m + 1). split; [lia|].
      rewrite <- Z.shiftr_shiftr, E, Z.shiftr_div_pow2 by lia.
      change (2 ^ 1) with 2. Z.div_mod_to_equations. lia.
Qed.

(** The left and the right subtree of [k] share no index. *)
Lemma subtrees_disjoint k j m m' :
  1 ≤ k → 0 ≤ m → 0 ≤ m' → j ≫ m = 2 * k → j ≫ m' = 2 * k + 1 → False.
Proof.
  intros Hk Hm Hm' E E'.
  destruct (Z.lt_trichotomy m m') as [Hlt|[->|Hlt]]; [| lia |].
  - replace m' with (m + (m' - m)) in E' by lia.
    rewrite <- Z.shiftr_shiftr, E in E' by lia.
    pose proof (shiftr_half_le (2 * k) (m' - m)).
    Z.div_mod_to_equations. lia.
  - replace m with (m' + (m - m')) in E by lia.
    rewrite <- Z.shiftr_shiftr, E' in E by lia.
    pose proof (shiftr_half_le (2 * k + 1) (m - m')).
    Z.div_mod_to_equations. lia.
Qed.

Lemma inorder_walk_NoDup f k : 1 ≤ k → NoDup (inorder_walk f N k).
Proof.
  revert k. induction f as [|f IH]; intros k Hk; [constructor|].
  rewrite inorder_walk_S. case_decide; [|constructor].
  apply NoDup_app. split_and!.
  - apply IH. lia.
  - intros j Hl Hr.
    apply inorder_walk_elem in Hl as (? & m & ? & E); [|lia].
    apply elem_of_cons in Hr as [->|Hr]; [lia|].
    apply inorder_walk_elem in Hr as (? & m' & ? & E'); [|lia].
    by apply (subtrees_disjoint k j m m').
  - apply NoDup_cons. split; [|apply IH; lia].
    intros Hr. apply inorder_walk_elem in Hr; lia.
Qed.

(** The walk does not depend on the fuel, when there is enough of it. *)
Lemma inorder_walk_fuel f f' k :
  1 ≤ k → deep_enough N f k → deep_enough N f' k →
  inorder_walk f N k = inorder_walk f' N k.
Proof.
  revert f' k. induction f as [|f IH]; intros f' k Hk Hf Hf'.
  - unfold deep_enough in Hf. change (2 ^ Z.of_nat 0) with 1 in Hf.
    destruct f'; [done|]. rewrite inorder_walk_S. by rewrite decide_False by lia.
  - rewrite inorder_walk_S. case_decide as HkN.
    + destruct (deep_enough_child _ _ Hk HkN Hf) as (f1 & [= <-] & ? & ?).
      destruct (deep_enough_child _ _ Hk HkN Hf') as (f2 & -> & ? & ?).
      rewrite inorder_walk_S, decide_True by done.
      f_equal; [|f_equal]; apply IH; (done || lia).
    + destruct f'; [done|]. rewrite inorder_walk_S. by rewrite decide_False.
Qed.

Lemma inorder_walk_root f k : k ≤ N → k ∈ inorder_walk (S f) N k.
Proof.
  intros Hk. rewrite inorder_walk_S, decide_True by done.
  apply elem_of_app. right. apply elem_of_cons. by left.
Qed.

(** The children of an index of the walk are in the walk. *)
Lemma inorder_walk_child f k p c :
  1 ≤ k → deep_enough N f k → p ∈ inorder_walk f N k →
  c ≤ N → c = 2 * p ∨ c = 2 * p + 1 → c ∈ inorder_walk f N k.
Proof.
  revert k. induction f as [|f IH]; intros k Hk Hf Hp Hc Hpc.
  - by apply elem_of_nil in Hp.
  - rewrite inorder_walk_S in Hp |- *.
    destruct (decide (k ≤ N)) as [HkN|]; [|by apply elem_of_nil in Hp].
    destruct (deep_enough_child _ _ Hk HkN Hf) as (f1 & [= <-] & Hl & Hr).
    apply elem_of_app in Hp as [Hp|Hp]; [|apply elem_of_cons in Hp as [->|Hp]].
    + apply elem_of_app. left. apply IH; (done || lia).
    + destruct Hpc as [-> | ->].
      * destruct (deep_enough_child f (2 * k) ltac:(lia) Hc Hl) as (f2 & -> & _).
        apply elem_of_app. left. by apply inorder_walk_root.
      * destruct (deep_enough_child f (2 * k + 1) ltac:(lia) Hc Hr) as (f2 & -> & _).
        apply elem_of_app. right. apply elem_of_cons. right.
        by apply inorder_walk_root.
    + apply elem_of_app. right. apply elem_of_cons. right.
      apply IH; (done || lia).
Qed.

(** The walk from the root reaches every index of [1..N]. *)
Lemma inorder_walk_cover f j :
  deep_enough N f 1 → 1 ≤ j ≤ N → j ∈ inorder_walk f N 1.
Proof.
  intros Hf. remember (Z.to_nat j) as m eqn:Em. revert j Em.
  induction (lt_wf m) as [m _ IH]. intros j -> Hj.
  destruct (decide (j = 1)) as [->|Hne].
  - destruct (deep_enough_child f 1 ltac:(lia) ltac:(lia) Hf) as (f' & -> & _).
    apply inorder_walk_root. lia.
  - apply (inorder_walk_child f 1 (j `div` 2) j); [lia|done| |lia|].
    + apply (IH (Z.to_nat (j `div` 2))); [|done|];
        Z.div_mod_to_equations; lia.
    + Z.div_mod_to_equations. lia.
Qed.

Lemma inorder_walk_length f :
  0 ≤ N → deep_enough N f 1 → length (inorder_walk f N 1) = Z.to_nat N.
Proof.
  intros HN Hf. apply Nat.le_antisymm.
  - rewrite <- (length_seqZ 1 N). apply submseteq_length, NoDup_submseteq.
    + by apply inorder_walk_NoDup.
    + intros j Hj. apply inorder_walk_elem in Hj; [|done].
      apply elem_of_seqZ. lia.
  - rewrite <- (length_seqZ 1 N). apply submseteq_length, NoDup_submseteq.
    + apply NoDup_seqZ.
    + intros j Hj. apply elem_of_seqZ in Hj. apply inorder_walk_cover; [done|lia].
Qed.

Lemma deep_enough_inorder : 0 ≤ N → deep_enough N (Z.to_nat N) 1.
Proof.
  intros HN. unfold deep_enough. rewrite Z2Nat.id, Z.mul_1_l by done.
  apply Z.pow_gt_lin_r; lia.
Qed.

Lemma deep_enough_depth_fuel : N ≤ INT_MAX → deep_enough N 31 1.
Proof.
  unfold deep_enough, INT_MAX. change (2 ^ Z.of_nat 31) with (2 ^ 31). lia.
Qed.
End tree.

(** ** The layout builder *)

Lemma bind_Done_eq {A B} (m : outcome A) (f : A → outcome B) a r b r' :
  m = Done a r → f a = Done b r' → m ≫= f = Done b (r ++ r').
Proof. intros -> E. by rewrite bind_Done, E. Qed.

Lemma bind_ret_eq {A B} (m : outcome A) (f : A → outcome B) a o :
  m = mret a → f a = o → m ≫= f = o.
Proof. intros -> <-. apply bind_ret_l. Qed.

Lemma inorder_walk_above f N k : N < k → inorder_walk f N k = [].
Proof. intros H. destruct f; [done|]. rewrite inorder_walk_S. by rewrite decide_False by lia. Qed.

Lemma eytzinger_S_unfold fuel n_ arr t_ i k :
  eytzinger (S fuel) n_ arr t_ i k =
  if decide (k ≤ n_) then
    k2 ← int_arith (2 * k);
    '(t1, i1) ← eytzinger fuel n_ arr t_ i k2;
    a ← vec_get arr i1;
    i2 ← int_arith (i1 + 1);
    t2 ← vec_set t1 k a;
    k3 ← int_arith (2 * k + 1);
    eytzinger fuel n_ arr t2 i2 k3
  else mret (t_, i).
Proof. reflexivity. Qed.

Section builder.
Context (arr : list Z).
Let N : Z := Z.of_nat (length arr).
Context (HN : 2 * N + 1 ≤ INT_MAX).

(** [eytzinger(arr, i, k)] returns; it writes the next elements of [arr],
    from the cursor [i] on, to the indices of the in-order walk below [k],
    in the order of the walk, and leaves the rest of [t] alone. *)
Lemma eytzinger_layout f k t0 i :
  1 ≤ k → deep_enough N f k →
  length t0 = S (length arr) →
  0 ≤ i → i + Z.of_nat (length (inorder_walk f N k)) ≤ N →
  ∃ t1 rd,
    eytzinger (S f) N arr t0 i k
      = Done (t1, i + Z.of_nat (length (inorder_walk f N k))) rd
    ∧ length t1 = length t0
    ∧ (∀ j, 0 ≤ j → j ∉ inorder_walk f N k →
         t1 !! Z.to_nat j = t0 !! Z.to_nat j)
    ∧ (∀ p j, inorder_walk f N k !! p = Some j →
         t1 !! Z.to_nat j = arr !! (Z.to_nat i + p)%nat).
Proof.
  revert k t0 i. induction f as [f IH] using lt_wf_ind.
  intros k t0 i Hk Hf Ht0 Hi Hlen.
  destruct (decide (k ≤ N)) as [HkN|HkN].
  2:{ rewrite inorder_walk_above in * by lia. exists t0, [].
      cbn [eytzinger]. rewrite decide_False by done.
      cbn [length]. rewrite Z.add_0_r. split_and!; try done.
      all: intros p j Hp; by rewrite lookup_nil in Hp. }
  destruct (deep_enough_child N f k Hk HkN Hf) as (f' & -> & Hfl & Hfr).
  pose proof (inorder_walk_NoDup N (S f') k Hk) as Hnd.
  rewrite inorder_walk_S, decide_True in Hlen, Hnd |- * by done.
  set (L := inorder_walk f' N (2 * k)) in *.
  set (R := inorder_walk f' N (2 * k + 1)) in *.
  rewrite length_app, length_cons in Hlen |- *.
  apply NoDup_app in Hnd as (_ & HLR & [HkR _]%NoDup_cons).
  destruct (IH f' ltac:(lia) (2 * k) t0 i) as (t1 & rd1 & E1 & Hl1 & Hu1 & Hw1);
    [lia|done|done|done|fold L; lia|]. fold L in E1, Hu1, Hw1.
  set (i1 := i + Z.of_nat (length L)) in *.
  destruct (lookup_lt_is_Some_2 arr (Z.to_nat i1)) as [a Ea]; [lia|].
  set (t2 := <[Z.to_nat k := a]> t1).
  destruct (IH f' ltac:(lia) (2 * k + 1) t2 (i1 + 1)) as (t3 & rd3 & E3 & Hl3 & Hu3 & Hw3);
    [lia|done|by (unfold t2; rewrite length_insert, Hl1)|lia|fold R; lia|].
  fold R in E3, Hu3, Hw3.
  exists t3, (rd1 ++ [i1] ++ [] ++ [] ++ [] ++ rd3). split_and!.
  - rewrite (eytzinger_S_unfold). rewrite decide_True by done.
    eapply bind_ret_eq; [apply int_arith_ok; unfold INT_MIN; lia|].
    eapply bind_Done_eq; [exact E1|]. cbn beta iota.
    eapply bind_Done_eq; [apply vec_get_ok; [lia|exact Ea]|].
    eapply bind_Done_eq; [apply int_arith_ok; unfold INT_MIN; lia|].
    eapply bind_Done_eq; [apply vec_set_ok; lia|].
    eapply bind_Done_eq; [apply int_arith_ok; unfold INT_MIN; lia|].
    fold t2. rewrite E3. do 2 f_equal. lia.
  - rewrite Hl3. unfold t2. by rewrite length_insert.
  - intros j Hj Hnot. apply not_elem_of_app in Hnot as [HjL HjR].
    apply not_elem_of_cons in HjR as [Hjk HjR].
    rewrite Hu3 by done. unfold t2.
    rewrite list_lookup_insert_ne by lia. by apply Hu1.
  - intros p j Hp. apply lookup_app_Some in Hp as [Hp|[Hge Hp]].
    + assert (j ∈ L) as HjL by (by eapply list_elem_of_lookup_2).
      specialize (HLR j HjL). apply not_elem_of_cons in HLR as [Hjk HjR].
      apply inorder_walk_elem in HjL as [? _]; [|lia].
      rewrite Hu3 by (done || lia). unfold t2.
      rewrite list_lookup_insert_ne by lia. by apply Hw1.
    + destruct (p - length L)%nat as [|q] eqn:Eq.
      * injection Hp as <-. rewrite Hu3 by (done || lia). unfold t2.
        rewrite list_lookup_insert_eq by lia. rewrite <- Ea. f_equal. lia.
      * cbn in Hp. rewrite (Hw3 q j Hp). f_equal. lia.
Qed.
End builder.

(** The constructor returns on every input of an admissible size, and the
    structure it builds has the Eytzinger layout. *)
Lemma Eytzinger_new_spec arr :
  size_ok arr →
  ∃ e, built arr e
    ∧ n e = Z.of_nat (length arr)
    ∧ length (t e) = S (length arr)
    ∧ t e !! 0%nat = Some (-1)
    ∧ iters e = Z.log2 (Z.of_nat (length arr) + 1)
    ∧ (λ k, t e !! Z.to_nat k) <$> inorder (Z.of_nat (length arr)) = Some <$> arr.
Proof.
  unfold size_ok, built, returns. set (N := Z.of_nat (length arr)). intros HN.
  assert (0 ≤ N) as HN0 by (unfold N; lia).
  pose proof int_bounds as [Emin Emax].
  assert (deep_enough N 31 1) as Hf by (apply deep_enough_depth_fuel; lia).
  pose proof (inorder_walk_length N 31 ltac:(lia) Hf) as Hwl.
  set (t0 := <[Z.to_nat 0 := -1]> (replicate (Z.to_nat (N + 1)) 0)).
  assert (2 * N + 1 ≤ INT_MAX) as HN' by lia.
  pose proof (eytzinger_layout arr HN' 31 1 t0 0) as Hlay.
  cbv zeta in Hlay. fold N in Hlay.
  destruct Hlay as (t1 & rd & E & Hl & Hu & Hw).
  { lia. } { done. }
  { unfold t0. rewrite length_insert, length_replicate. lia. }
  { lia. } { lia. }
  assert (length t0 = S (length arr)) as Hl0.
  { unfold t0. rewrite length_insert, length_replicate. lia. }
  exists {| t := t1; n := N; iters := lg (N + 1) |}. cbn [t n iters]. split_and!.
  - exists ([] ++ [] ++ rd ++ []). unfold Eytzinger_new. fold N.
    rewrite to_int_id by lia.
    eapply bind_Done_eq; [apply int_arith_ok; lia|].
    rewrite decide_True by lia.
    eapply bind_Done_eq.
    { apply vec_set_ok. rewrite length_replicate. lia. }
    fold t0. eapply bind_Done_eq; [exact E|]. reflexivity.
  - done.
  - by rewrite Hl.
  - change 0%nat with (Z.to_nat 0). rewrite Hu.
    + unfold t0. rewrite list_lookup_insert_eq; [done|].
      rewrite length_replicate. lia.
    + done.
    + intros H0. apply inorder_walk_elem in H0; lia.
  - apply lg_log2. lia.
  - unfold inorder.
    rewrite (inorder_walk_fuel N _ 31 1); [|lia|apply deep_enough_inorder; lia|done].
    apply list_eq. intros p. rewrite !list_lookup_fmap.
    destruct (inorder_walk 31 N 1 !! p) as [j|] eqn:Ej; cbn.
    + rewrite (Hw p j Ej). change (Z.to_nat 0 + p)%nat with p.
      apply lookup_lt_Some in Ej.
      destruct (lookup_lt_is_Some_2 arr p) as [a ->]; [lia|done].
    + apply lookup_ge_None in Ej. by rewrite lookup_ge_None_2 by lia.
Qed.

Lemma built_inj arr e e' : built arr e → built arr e' → e = e'.
Proof. intros [r E] [r' E']. congruence. Qed.

(** ** Ranks in ascending sequences *)

Lemma filter_all {A} (P : A → Prop) `{∀ a, Decision (P a)} (l : list A) :
  Forall P l → filter P l = l.
Proof.
  induction 1 as [|a l Ha _ IH]; [done|].
  by rewrite filter_cons_True, IH.
Qed.

Lemma filter_none {A} (P : A → Prop) `{∀ a, Decision (P a)} (l : list A) :
  Forall (λ a, ¬ P a) l → filter P l = [].
Proof.
  induction 1 as [|a l Ha _ IH]; [done|].
  by rewrite filter_cons_False.
Qed.

Lemma nth_app_middle {A} (l r : list A) (k d : A) (m : nat) :
  (m ≤ length l)%nat → nth m (l ++ k :: r) d = nth m l k.
Proof.
  intros Hm. destruct (decide (m = length l)) as [->|Hne].
  - rewrite nth_middle. by rewrite nth_overflow.
  - rewrite app_nth1 by lia. apply nth_indep. lia.
Qed.

Section rank.
Context (x : Z).
Implicit Types l arr : list Z.

Lemma rank_range arr : 0 ≤ rank arr x ≤ Z.of_nat (length arr).
Proof. unfold rank. pose proof (length_filter (λ a, a < x) arr). lia. Qed.

Lemma ascending_above a l :
  Forall (Z.le a) l → ¬ a < x → filter (λ a, a < x) l = [].
Proof.
  intros Hl Ha. apply filter_none.
  eapply Forall_impl; [exact Hl|]. cbn. lia.
Qed.

(** In an ascending sequence the elements below [x] are those before
    position [rank]. *)
Lemma rank_lt_iff arr j a :
  StronglySorted Z.le arr → arr !! j = Some a →
  a < x ↔ Z.of_nat j < rank arr x.
Proof.
  unfold rank. intros Hs. revert j.
  induction Hs as [|a0 l Hs IH Hfa]; intros j Hj; [by rewrite lookup_nil in Hj|].
  destruct (decide (a0 < x)) as [Hlt|Hge].
  - rewrite filter_cons_True by done. cbn [length].
    destruct j as [|j]; cbn in Hj.
    + injection Hj as <-. lia.
    + rewrite (IH j Hj). lia.
  - rewrite filter_cons_False, (ascending_above a0) by done. cbn [length].
    destruct j as [|j]; cbn in Hj.
    + injection Hj as <-. lia.
    + apply list_elem_of_lookup_2 in Hj.
      rewrite Forall_forall in Hfa. specialize (Hfa a Hj). lia.
Qed.

(** The element at position [rank] is the first one not below [x]. *)
Lemma first_not_less_rank arr :
  StronglySorted Z.le arr →
  first_not_less arr x = arr !! Z.to_nat (rank arr x).
Proof.
  unfold first_not_less, rank. rewrite Nat2Z.id.
  induction 1 as [|a0 l Hs IH Hfa]; [done|].
  destruct (decide (a0 < x)) as [Hlt|Hge].
  - rewrite (filter_cons_True (λ a, a < x)) by done.
    rewrite (filter_cons_False (λ a, ¬ a < x)) by (cbn; lia).
    cbn [length]. by rewrite IH.
  - rewrite (filter_cons_False (λ a, a < x)) by done.
    rewrite (filter_cons_True (λ a, ¬ a < x)) by done.
    by rewrite (ascending_above a0).
Qed.

Lemma rank_full arr : rank arr x = Z.of_nat (length arr) ↔ Forall (λ a, a < x) arr.
Proof.
  unfold rank. split.
  - intros E. apply Forall_forall. intros a Ha.
    destruct (decide (a < x)) as [|Hn]; [done|].
    pose proof (length_filter_lt (λ a, a < x) arr a Ha Hn). lia.
  - intros Hfa. by rewrite filter_all.
Qed.
End rank.

(** ** The queries on a built structure *)

Lemma built_layout arr e : size_ok arr → built arr e → layout arr e.
Proof.
  intros Hsz Hb. destruct (Eytzinger_new_spec arr Hsz) as (e' & Hb' & ? & ? & ? & ? & ?).
  rewrite (built_inj arr e e' Hb Hb'). unfold size_ok in Hsz.
  constructor; (done || lia).
Qed.

Lemma while_original_S fuel e x k :
  while_original (S fuel) e x k =
  if decide (k ≤ n e) then
    a ← vec_get (t e) k;
    k' ← int_arith (2 * k + Z.b2z (bool_decide (a < x)));
    while_original fuel e x k'
  else mret k.
Proof. reflexivity. Qed.

Section search.
Context (arr : list Z) (e : Eytzinger) (Hlay : layout arr e).
Let N : Z := Z.of_nat (length arr).

Lemma store_val_lookup k : 0 ≤ k ≤ N → t e !! Z.to_nat k = Some (store_val e k).
Proof.
  intros Hk. unfold store_val.
  destruct (lookup_lt_is_Some_2 (t e) (Z.to_nat k)) as [a ->]; [|done].
  rewrite (layout_length _ _ Hlay). lia.
Qed.

Lemma store_val_inorder : store_val e <$> inorder N = arr.
Proof.
  change (store_val e) with (default 0 ∘ (λ k, t e !! Z.to_nat k)).
  rewrite list_fmap_compose. unfold N. rewrite (layout_inorder _ _ Hlay).
  rewrite <- list_fmap_compose. apply list_fmap_id.
Qed.

Lemma inorder_depth_fuel : inorder_walk 31 N 1 = inorder N.
Proof.
  pose proof (layout_size _ _ Hlay). unfold inorder.
  apply inorder_walk_fuel; [lia| |apply deep_enough_inorder; lia].
  apply deep_enough_depth_fuel. fold N in H. lia.
Qed.

(** The loop of [lower_bound_original], started at [k]: it returns, reads
    only indices of [1..N], and the index it leaves restores to the
    store index of the first element of the subtree of [k] that is not
    below [x], or to what [k] itself restores to when there is none. *)
Lemma while_original_walk x f k :
  1 ≤ k ≤ 2 * N + 1 → deep_enough N f k →
  StronglySorted Z.le (store_val e <$> inorder_walk f N k) →
  ∃ kf rd,
    while_original (S f) e x k = Done kf rd
    ∧ N < kf ≤ 2 * N + 1
    ∧ Forall (λ j, 1 ≤ j ≤ N) rd
    ∧ restore kf =
        nth (length (filter (λ a, a < x) (store_val e <$> inorder_walk f N k)))
            (inorder_walk f N k) (restore k).
Proof.
  pose proof (layout_size _ _ Hlay) as Hsz. fold N in Hsz.
  pose proof (layout_n _ _ Hlay) as Hn. fold N in Hn.
  pose proof int_bounds as [Emin Emax].
  revert k. induction f as [|f IH]; intros k Hk Hf Hs;
    (destruct (decide (k ≤ N)) as [HkN|HkN];
     [destruct (deep_enough_child N _ k ltac:(lia) HkN Hf) as (f1 & [= ->] & Hfl & Hfr)|]).
  1,3: (exists k, []; rewrite while_original_S, Hn, decide_False by done;
        rewrite inorder_walk_above by lia; split_and!; [done|lia|lia|constructor|done]).
  rewrite inorder_walk_S, decide_True in Hs |- * by done.
  set (L := inorder_walk f1 N (2 * k)) in *.
  set (R := inorder_walk f1 N (2 * k + 1)) in *.
  rewrite fmap_app, fmap_cons in Hs |- *.
  apply StronglySorted_app in Hs as (HLR & HsL & [HkR HsR]%StronglySorted_cons).
  rewrite filter_app, length_app.
  destruct (decide (store_val e k < x)) as [Hlt|Hge].
  - destruct (IH (2 * k + 1)) as (kf & rd & E & Hkf & Hrd & Hres); [lia|done|done|].
    exists kf, ([k] ++ [] ++ rd). split_and!; [|lia|lia|by constructor; [lia|]|].
    + rewrite while_original_S, Hn, decide_True by done.
      eapply bind_Done_eq; [apply vec_get_ok; [lia|apply store_val_lookup; lia]|].
      rewrite bool_decide_eq_true_2 by done. cbn [Z.b2z].
      eapply bind_Done_eq; [apply int_arith_ok; lia|]. exact E.
    + rewrite Hres, restore_odd by lia. fold R.
      rewrite filter_cons_True by done. cbn [length].
      rewrite (filter_all (λ a, a < x) (store_val e <$> L)).
      * by rewrite length_fmap, app_nth2_plus.
      * apply Forall_forall. intros a Ha.
        specialize (HLR a (store_val e k) Ha ltac:(left)). lia.
  - destruct (IH (2 * k)) as (kf & rd & E & Hkf & Hrd & Hres); [lia|done|done|].
    exists kf, ([k] ++ [] ++ rd). split_and!; [|lia|lia|by constructor; [lia|]|].
    + rewrite while_original_S, Hn, decide_True by done.
      eapply bind_Done_eq; [apply vec_get_ok; [lia|apply store_val_lookup; lia]|].
      rewrite bool_decide_eq_false_2 by done. cbn [Z.b2z]. rewrite Z.add_0_r.
      eapply bind_Done_eq; [apply int_arith_ok; lia|]. exact E.
    + rewrite Hres, restore_even. fold L.
      rewrite filter_cons_False by done.
      rewrite (ascending_above x (store_val e k) (store_val e <$> R)) by done.
      cbn [length]. rewrite Nat.add_0_r. symmetry. apply nth_app_middle.
      etrans; [apply length_filter|]. by rewrite length_fmap.
Qed.

(** [lower_bound_original] returns the store index of the element at the
    rank of [x], reading only indices of [1..N]. *)
Lemma lower_bound_original_index x :
  StronglySorted Z.le arr →
  ∃ rd, lower_bound_original e x = Done (eytzinger_index N (rank arr x)) rd
        ∧ Forall (λ j, 1 ≤ j ≤ N) rd.
Proof.
  intros Hs. pose proof (layout_size _ _ Hlay) as Hsz. fold N in Hsz.
  destruct (while_original_walk x 31 1) as (kf & rd & E & Hkf & Hrd & Hres).
  { lia. } { apply deep_enough_depth_fuel. lia. }
  { by rewrite inorder_depth_fuel, store_val_inorder. }
  rewrite inorder_depth_fuel, store_val_inorder in Hres.
  exists (rd ++ []). split; [|by rewrite app_nil_r].
  unfold lower_bound_original.
  eapply bind_Done_eq; [exact E|].
  rewrite restore_int_ok by lia. rewrite Hres.
  unfold eytzinger_index, rank. by rewrite Nat2Z.id.
Qed.
End search.

(** ** Prefetching *)

Lemma bind_Done_inv {A B} (m : outcome A) (f : A → outcome B) b r :
  m ≫= f = Done b r →
  ∃ a r1 r2, m = Done a r1 ∧ f a = Done b r2 ∧ r = r1 ++ r2.
Proof.
  destruct m as [a r1| |]; [|done..]. rewrite bind_Done.
  destruct (f a) as [b' r2| |] eqn:E; [|done..].
  intros [= -> <-]. by exists a, r1, r2.
Qed.

Lemma bind_ext_on {A B} (m : outcome A) (f g : A → outcome B) :
  (∀ a r, m = Done a r → f a = g a) → m ≫= f = m ≫= g.
Proof.
  intros E. destruct m as [a r| |]; [|done..].
  rewrite !bind_Done. by rewrite (E a r).
Qed.

Lemma b2z_range (b : bool) : 0 ≤ Z.b2z b ≤ 1.
Proof. destruct b; cbn; lia. Qed.

Lemma prefetch_ahead_ok e k : 0 ≤ k ≤ INT_MAX → prefetch_ahead e k = mret ().
Proof.
  intros Hk. unfold prefetch_ahead, builtin_prefetch.
  rewrite long_arith_ok; [by rewrite bind_ret_l|].
  unfold LONG_MIN, LONG_MAX, INT_MAX in *. lia.
Qed.

Lemma int_long_range z : INT_MIN ≤ z ≤ INT_MAX → LONG_MIN ≤ z ≤ LONG_MAX.
Proof. unfold INT_MIN, INT_MAX, LONG_MIN, LONG_MAX. lia. Qed.

Section prefetch.
Context (e : Eytzinger) (x : Z).
Context (Hn0 : 0 ≤ n e) (Hn : 2 * n e + 1 < INT_MAX).

Lemma while_original_range fuel k kf rd :
  1 ≤ k ≤ 2 * n e + 1 → while_original fuel e x k = Done kf rd →
  1 ≤ kf ≤ 2 * n e + 1.
Proof.
  revert k rd. induction fuel as [|fuel IH]; intros k rd Hk E; [done|].
  rewrite while_original_S in E. case_decide as HkN; [|by injection E as <- _].
  apply bind_Done_inv in E as (a & r1 & r2 & _ & E & _).
  apply bind_Done_inv in E as (k' & r3 & r4 & Ek & E & _).
  pose proof (b2z_range (bool_decide (a < x))).
  unfold int_arith in Ek. case_decide; [|done]. injection Ek as <- _.
  eapply IH; [|exact E]. lia.
Qed.

(** The loop of [lower_bound_prefetch] is the loop of
    [lower_bound_original]: same result, same reads. *)
Lemma while_prefetch_original fuel k :
  1 ≤ k → while_prefetch fuel e x k = while_original fuel e x k.
Proof.
  revert k. induction fuel as [|fuel IH]; intros k Hk; [done|].
  rewrite while_original_S. cbn [while_prefetch]. case_decide as HkN; [|done].
  rewrite prefetch_ahead_ok, bind_ret_l by lia.
  apply bind_ext. intros a. pose proof (b2z_range (bool_decide (a < x))).
  pose proof int_bounds as [Emin Emax].
  rewrite int_arith_ok, long_arith_ok by (try apply int_long_range; lia).
  rewrite !bind_ret_l. apply IH. lia.
Qed.

Lemma restore_long_int k :
  0 ≤ k < INT_MAX → (r ← restore_long k; mret (to_int r)) = restore_int k.
Proof.
  intros Hk. rewrite restore_long_ok, restore_int_ok, bind_ret_l by done.
  pose proof (restore_range k ltac:(lia)). pose proof int_bounds as [Emin Emax].
  by rewrite to_int_id by lia.
Qed.

Lemma lower_bound_prefetch_original :
  lower_bound_prefetch e x = lower_bound_original e x.
Proof.
  unfold lower_bound_prefetch, lower_bound_original.
  rewrite while_prefetch_original by lia.
  apply bind_ext_on. intros kf rd E.
  apply while_original_range in E; [|lia].
  apply restore_long_int. lia.
Qed.
End prefetch.

(** ** Fixed iteration *)

Lemma for_fixed_iter_S count e x k :
  for_fixed_iter (S count) e x k =
  a ← vec_get (t e) k;
  k' ← long_arith (2 * k + Z.b2z (bool_decide (a < x)));
  for_fixed_iter count e x k'.
Proof. reflexivity. Qed.

Lemma pow2_S (c : nat) : 2 ^ Z.of_nat (S c) = 2 * 2 ^ Z.of_nat c.
Proof. rewrite Nat2Z.inj_succ. apply Z.pow_succ_r. lia. Qed.

Lemma pow2_pos (c : nat) : 0 < 2 ^ Z.of_nat c.
Proof. apply Z.pow_pos_nonneg; lia. Qed.

Section fixed_iteration.
Context (arr : list Z) (e : Eytzinger) (Hlay : layout arr e) (x : Z).
Let N : Z := Z.of_nat (length arr).

(** [count] iterations from [k] stay inside [1..N] when the subtree of
    height [count] below [k] does: [(k + 1) * 2^count <= 2 (N + 1)]. *)
Lemma for_fixed_iter_spec count k :
  1 ≤ k → (k + 1) * 2 ^ Z.of_nat count ≤ 2 * (N + 1) →
  ∃ kf rd,
    for_fixed_iter count e x k = Done kf rd
    ∧ length rd = count
    ∧ Forall (λ j, 1 ≤ j ≤ N) rd
    ∧ k * 2 ^ Z.of_nat count ≤ kf
    ∧ kf + 1 ≤ (k + 1) * 2 ^ Z.of_nat count.
Proof.
  pose proof (layout_size _ _ Hlay) as Hsz. fold N in Hsz.
  pose proof int_bounds as [Emin Emax].
  revert k. induction count as [|c IH]; intros k Hk Hc.
  - exists k, []. change (2 ^ Z.of_nat 0) with 1. split_and!; (done || lia).
  - rewrite pow2_S in Hc |- *. pose proof (pow2_pos c).
    assert (k ≤ N) as HkN by nia.
    set (b := Z.b2z (bool_decide (store_val e k < x))).
    pose proof (b2z_range (bool_decide (store_val e k < x))). fold b in H0.
    destruct (IH (2 * k + b)) as (kf & rd & E & Hl & Hrd & Hlo & Hhi); [lia|nia|].
    exists kf, ([k] ++ [] ++ rd). split_and!.
    + rewrite for_fixed_iter_S.
      eapply bind_Done_eq;
        [apply vec_get_ok; [lia|apply (store_val_lookup arr); [done|fold N; lia]]|].
      eapply bind_Done_eq; [apply long_arith_ok, int_long_range; fold b; lia|].
      exact E.
    + cbn. by rewrite Hl.
    + constructor; [lia|done].
    + nia.
    + nia.
Qed.

(** The fixed iterations are the first iterations of the [while] loop. *)
Lemma while_original_prefix count fuel k :
  1 ≤ k → (k + 1) * 2 ^ Z.of_nat count ≤ 2 * (N + 1) →
  while_original (count + fuel) e x k =
  for_fixed_iter count e x k ≫= while_original fuel e x.
Proof.
  pose proof (layout_size _ _ Hlay) as Hsz. fold N in Hsz.
  pose proof (layout_n _ _ Hlay) as Hn. fold N in Hn.
  pose proof int_bounds as [Emin Emax].
  revert k. induction count as [|c IH]; intros k Hk Hc.
  - cbn [for_fixed_iter]. by rewrite bind_ret_l.
  - rewrite pow2_S in Hc. pose proof (pow2_pos c).
    assert (k ≤ N) as HkN by nia.
    change (S c + fuel)%nat with (S (c + fuel)).
    rewrite while_original_S, Hn, decide_True, for_fixed_iter_S, bind_assoc by done.
    apply bind_ext. intros a. rewrite bind_assoc.
    pose proof (b2z_range (bool_decide (a < x))).
    rewrite int_arith_ok, long_arith_ok by (try apply int_long_range; lia).
    rewrite !bind_ret_l. apply IH; [lia|nia].
Qed.

(** The same loop with prefetch and an [int] index. *)
Lemma for_fixed_iter_prefetch_eq count k :
  1 ≤ k → (k + 1) * 2 ^ Z.of_nat count ≤ 2 * (N + 1) →
  for_fixed_iter_prefetch count e x k = for_fixed_iter count e x k.
Proof.
  pose proof (layout_size _ _ Hlay) as Hsz. fold N in Hsz.
  pose proof int_bounds as [Emin Emax].
  revert k. induction count as [|c IH]; intros k Hk Hc; [done|].
  rewrite pow2_S in Hc. pose proof (pow2_pos c).
  assert (k ≤ N) as HkN by nia.
  rewrite for_fixed_iter_S. cbn [for_fixed_iter_prefetch].
  rewrite prefetch_ahead_ok, bind_ret_l by lia.
  apply bind_ext. intros a.
  pose proof (b2z_range (bool_decide (a < x))).
  rewrite int_arith_ok, long_arith_ok by (try apply int_long_range; lia).
  rewrite !bind_ret_l. apply IH; [lia|nia].
Qed.

Lemma iters_spec :
  0 ≤ iters e ∧ 2 ^ iters e ≤ N + 1 < 2 * 2 ^ iters e
  ∧ Z.of_nat (Z.to_nat (iters e)) = iters e ∧ (Z.to_nat (iters e) ≤ 29)%nat.
Proof.
  pose proof (layout_size _ _ Hlay) as Hsz. fold N in Hsz.
  rewrite (layout_iters _ _ Hlay). fold N.
  assert (0 ≤ N) by (unfold N; lia).
  pose proof (Z.log2_nonneg (N + 1)).
  destruct (Z.log2_spec (N + 1)) as [Hlo Hhi]; [lia|].
  rewrite Z.pow_succ_r in Hhi by done.
  split_and!; [done|done|done|lia|].
  assert (Z.log2 (N + 1) < 30); [|lia].
  apply Z.log2_lt_pow2; [lia|]. unfold INT_MAX in Hsz. lia.
Qed.

(** The fixed-iteration loop of the queries, from the root. *)
Lemma for_fixed_iter_root :
  ∃ kf rd,
    for_fixed_iter (Z.to_nat (iters e)) e x 1 = Done kf rd
    ∧ length rd = Z.to_nat (iters e)
    ∧ Forall (λ j, 1 ≤ j ≤ N) rd
    ∧ N + 1 < 2 * kf ∧ 1 ≤ kf ≤ 2 * N + 1.
Proof.
  destruct iters_spec as (H0 & [Hlo Hhi] & Hc & _).
  destruct (for_fixed_iter_spec (Z.to_nat (iters e)) 1)
    as (kf & rd & E & Hl & Hrd & Hkl & Hkh); [lia|rewrite Hc; lia|].
  rewrite Hc in Hkl, Hkh. exists kf, rd. split_and!; (done || lia).
Qed.
End fixed_iteration.

Section fixed_results.
Context (arr : list Z) (e : Eytzinger) (Hlay : layout arr e) (x : Z).
Let N : Z := Z.of_nat (length arr).

(** The [while] loop from the root, on an ascending input. *)
Lemma while_original_root :
  StronglySorted Z.le arr →
  ∃ kf rd,
    while_original depth_fuel e x 1 = Done kf rd
    ∧ N < kf ≤ 2 * N + 1
    ∧ restore kf = eytzinger_index N (rank arr x).
Proof.
  intros Hs. pose proof (layout_size _ _ Hlay) as Hsz. fold N in Hsz.
  pose proof (while_original_walk arr e Hlay x 31 1) as Hw.
  cbv zeta in Hw.
  rewrite (inorder_depth_fuel arr e), (store_val_inorder arr e) in Hw by done.
  fold N in Hw.
  destruct Hw as (kf & rd & E & Hkf & _ & Hres).
  { unfold N. lia. } { apply deep_enough_depth_fuel. lia. } { done. }
  exists kf, rd. split_and!; [done|lia|lia|].
  rewrite Hres. unfold eytzinger_index, rank. by rewrite Nat2Z.id.
Qed.

Lemma root_invariant : (1 + 1) * 2 ^ Z.of_nat (Z.to_nat (iters e)) ≤ 2 * (N + 1).
Proof.
  pose proof (iters_spec arr e Hlay) as H. cbv zeta in H. fold N in H.
  destruct H as (_ & ? & -> & _). lia.
Qed.

(** Prefetching and the [int] index change nothing in the
    fixed-iteration query. *)
Lemma lower_bound_fixed_iter_prefetch_eq :
  lower_bound_fixed_iter_prefetch e x = lower_bound_fixed_iter e x.
Proof.
  pose proof (layout_size4 _ _ Hlay) as Hsz. fold N in Hsz.
  pose proof int_bounds as [Emin Emax].
  unfold lower_bound_fixed_iter_prefetch, lower_bound_fixed_iter.
  rewrite (for_fixed_iter_prefetch_eq arr) by (done || apply root_invariant).
  apply bind_ext_on. intros kf rd E.
  destruct (for_fixed_iter_root arr e Hlay x) as (kf' & rd' & E' & _ & _ & _ & Hkf).
  fold N in Hkf. assert (kf' = kf) as -> by congruence.
  apply bind_ext. intros a. pose proof (b2z_range (bool_decide (a < x))).
  rewrite int_arith_ok, long_arith_ok by (try apply int_long_range; lia).
  rewrite !bind_ret_l. symmetry. apply restore_long_int. lia.
Qed.

(** On an ascending input and a key above the sentinel, the
    fixed-iteration query returns what [lower_bound_original] returns. *)
Lemma lower_bound_fixed_iter_index :
  StronglySorted Z.le arr → -1 < x →
  returns (lower_bound_fixed_iter e x) (eytzinger_index N (rank arr x)).
Proof.
  intros Hs Hx.
  pose proof (layout_size4 _ _ Hlay) as Hsz. fold N in Hsz.
  pose proof (layout_n _ _ Hlay) as Hn. fold N in Hn.
  pose proof int_bounds as [Emin Emax].
  destruct (while_original_root Hs) as (kfin & rd0 & E0 & Hkfin & Hres).
  destruct (for_fixed_iter_root arr e Hlay x) as (kf & rd & E & _ & _ & Hlo & Hkf).
  fold N in Hlo, Hkf.
  destruct (iters_spec arr e Hlay) as (_ & _ & _ & Hc).
  set (c := Z.to_nat (iters e)) in *.
  unfold depth_fuel in E0. replace 32%nat with (c + S (S (30 - c)))%nat in E0 by lia.
  rewrite (while_original_prefix arr) in E0 by (done || apply root_invariant).
  rewrite E in E0. apply bind_Done_inv in E0 as (? & ? & r2 & [= <- <-] & E2 & _).
  unfold returns, lower_bound_fixed_iter. fold c. rewrite <- Hres.
  rewrite while_original_S, Hn in E2.
  destruct (decide (kf ≤ N)) as [HkN|HkN].
  - set (b := Z.b2z (bool_decide (store_val e kf < x))).
    pose proof (b2z_range (bool_decide (store_val e kf < x))) as Hb. fold b in Hb.
    assert (t e !! Z.to_nat kf = Some (store_val e kf)) as Ea
      by (apply (store_val_lookup arr); [done|fold N; lia]).
    assert (kfin = 2 * kf + b) as ->.
    { assert (0 ≤ kf) as Hkf0 by lia.
      rewrite (vec_get_ok _ _ _ Hkf0 Ea), bind_Done in E2. fold b in E2.
      rewrite int_arith_ok, bind_ret_l, while_original_S, Hn in E2 by lia.
      rewrite decide_False in E2 by lia. by injection E2 as <- _. }
    eexists. eapply bind_Done_eq; [exact E|]. rewrite Hn, decide_True by done.
    eapply bind_Done_eq; [by apply vec_get_ok; [lia|]|]. fold b.
    eapply bind_Done_eq; [apply long_arith_ok, int_long_range; lia|].
    eapply bind_Done_eq; [apply restore_long_ok; lia|].
    pose proof (restore_range (2 * kf + b) ltac:(lia)).
    by rewrite to_int_id by lia.
  - injection E2 as <- _.
    eexists. eapply bind_Done_eq; [exact E|]. rewrite Hn, decide_False by done.
    eapply bind_Done_eq;
      [apply vec_get_ok; [lia|exact (layout_sentinel _ _ Hlay)]|].
    rewrite bool_decide_eq_true_2 by done. cbn [Z.b2z].
    eapply bind_Done_eq; [apply long_arith_ok, int_long_range; lia|].
    eapply bind_Done_eq; [apply restore_long_ok; lia|].
    pose proof (restore_range (2 * kf + 1) ltac:(lia)).
    rewrite to_int_id by lia. by rewrite restore_odd by lia.
Qed.
End fixed_results.

(** ** The reference searches *)

Lemma while_naive_S fuel arr x low high :
  while_naive (S fuel) arr x low high =
  d ← int_arith (high - low);
  if decide (d > 1) then
    s ← int_arith (high + low);
    let mid := s `quot` 2 in
    a ← vec_get arr mid;
    if decide (a < x) then while_naive fuel arr x mid high
    else while_naive fuel arr x low mid
  else mret high.
Proof. reflexivity. Qed.

Lemma std_lower_bound_loop_S fuel arr x first len :
  std_lower_bound_loop (S fuel) arr x first len =
  if decide (len > 0) then
    let half := len ≫ 1 in
    let middle := first + half in
    a ← vec_get arr middle;
    if decide (a < x) then
      std_lower_bound_loop fuel arr x (middle + 1) (len - half - 1)
    else std_lower_bound_loop fuel arr x first half
  else mret first.
Proof. reflexivity. Qed.

Lemma naive_binary_search_unfold arr x :
  naive_binary_search arr x =
  if decide (arr = []) then mret 0
  else
    a ← vec_get arr 0;
    if decide (a >= x) then mret 0
    else while_naive depth_fuel arr x 0 (to_int (Z.of_nat (length arr))).
Proof. by destruct arr. Qed.

Section reference.
Context (arr : list Z) (x : Z) (Hs : StronglySorted Z.le arr).
Let N : Z := Z.of_nat (length arr).
Let r : Z := rank arr x.

Lemma rank_at j : 0 ≤ j < N → ∃ a, arr !! Z.to_nat j = Some a ∧ (a < x ↔ j < r).
Proof.
  intros Hj. destruct (lookup_lt_is_Some_2 arr (Z.to_nat j)) as [a Ea]; [lia|].
  exists a. split; [done|]. rewrite (rank_lt_iff x arr _ a Hs Ea). fold r. lia.
Qed.

(** The loop of [naive_binary_search] keeps [low < rank <= high] and
    halves [high - low]. *)
Lemma while_naive_rank fuel low high :
  2 * N ≤ INT_MAX →
  0 ≤ low < r → r ≤ high ≤ N → high - low ≤ 2 ^ Z.of_nat fuel →
  returns (while_naive (S fuel) arr x low high) r.
Proof.
  intros HN. pose proof int_bounds as [Emin Emax].
  revert low high. induction fuel as [|f IH]; intros low high Hlo Hhi Hgap;
    rewrite while_naive_S, (int_arith_ok (high - low)), bind_ret_l by lia;
    destruct (decide (high - low > 1)) as [Hgt|Hle].
  - change (2 ^ Z.of_nat 0) with 1 in Hgap. lia.
  - exists []. unfold mret, outcome_ret. do 2 f_equal. lia.
  - rewrite pow2_S in Hgap.
    rewrite (int_arith_ok (high + low)), bind_ret_l by lia. cbv zeta.
    set (mid := (high + low) `quot` 2).
    assert (low < mid < high ∧ high - mid ≤ 2 ^ Z.of_nat f ∧ mid - low ≤ 2 ^ Z.of_nat f)
      as (Hmid & Hg1 & Hg2) by (unfold mid; Z.quot_rem_to_equations; lia).
    destruct (rank_at mid) as (a & Ea & Ha); [lia|].
    rewrite (vec_get_ok arr mid a) by (done || lia). rewrite bind_Done.
    destruct (decide (a < x)) as [Hlt|Hge].
    + destruct (IH mid high) as [rd ->]; [lia|lia|lia|]. by eexists.
    + destruct (IH low mid) as [rd ->]; [lia|lia|lia|]. by eexists.
  - exists []. unfold mret, outcome_ret. do 2 f_equal. lia.
Qed.

Lemma naive_binary_search_rank :
  2 * N ≤ INT_MAX → returns (naive_binary_search arr x) r.
Proof.
  intros HN. pose proof int_bounds as [Emin Emax].
  pose proof (rank_range x arr) as Hr. fold r N in Hr.
  rewrite naive_binary_search_unfold. destruct (decide (arr = [])) as [Earr|Earr].
  - exists []. unfold r. by rewrite Earr.
  - destruct (rank_at 0) as (a & Ea & Ha).
    { unfold N. destruct arr; [done|]. cbn. lia. }
    rewrite (vec_get_ok arr 0 a) by done. rewrite bind_Done.
    destruct (decide (a >= x)) as [Hge|Hlt].
    + exists ([0] ++ []). unfold mret, outcome_ret. do 2 f_equal. lia.
    + fold N. rewrite to_int_id by lia. unfold depth_fuel.
      destruct (while_naive_rank 31 0 N) as [rd ->]; [lia|lia|lia| |by eexists].
      change (2 ^ Z.of_nat 31) with (2 ^ 31). lia.
Qed.

(** The bisection of [std::lower_bound] keeps
    [first <= rank <= first + len] and halves [len]. *)
Lemma std_lower_bound_loop_rank fuel first len :
  0 ≤ first ≤ r → 0 ≤ len → r ≤ first + len ≤ N → len < 2 ^ Z.of_nat fuel →
  returns (std_lower_bound_loop (S fuel) arr x first len) r.
Proof.
  revert first len. induction fuel as [|f IH]; intros first len Hfi Hlen Hr Hfuel;
    rewrite std_lower_bound_loop_S;
    destruct (decide (len > 0)) as [Hgt|Hle].
  - change (2 ^ Z.of_nat 0) with 1 in Hfuel. lia.
  - exists []. unfold mret, outcome_ret. do 2 f_equal. lia.
  - rewrite pow2_S in Hfuel. cbv zeta.
    rewrite Z.shiftr_div_pow2 by lia. change (2 ^ 1) with 2.
    set (half := len `div` 2).
    assert (0 ≤ half < len ∧ half < 2 ^ Z.of_nat f ∧ len - half - 1 < 2 ^ Z.of_nat f)
      as (Hh & Hf1 & Hf2) by (unfold half; Z.div_mod_to_equations; lia).
    destruct (rank_at (first + half)) as (a & Ea & Ha); [lia|].
    rewrite (vec_get_ok arr (first + half) a) by (done || lia). rewrite bind_Done.
    destruct (decide (a < x)) as [Hlt|Hge].
    + destruct (IH (first + half + 1) (len - half - 1)) as [rd ->];
        [lia|lia|lia|lia|]. by eexists.
    + destruct (IH first half) as [rd ->]; [lia|lia|lia|lia|]. by eexists.
  - exists []. unfold mret, outcome_ret. do 2 f_equal. lia.
Qed.

Lemma std_lower_bound_rank :
  N ≤ INT_MAX → returns (std_lower_bound arr x) r.
Proof.
  intros HN. pose proof int_bounds as [Emin Emax].
  pose proof (rank_range x arr) as Hr. fold r N in Hr.
  unfold std_lower_bound. fold N.
  destruct (std_lower_bound_loop_rank 63 0 N) as [rd E]; [lia|lia|lia| |].
  { change (2 ^ Z.of_nat 63) with (2 ^ 63). lia. }
  eexists. eapply bind_Done_eq; [exact E|]. by rewrite to_int_id by lia.
Qed.
End reference.

(** ** Store indices and ranks *)

Lemma inorder_length N : 0 ≤ N → length (inorder N) = Z.to_nat N.
Proof. intros HN. by apply inorder_walk_length, deep_enough_inorder. Qed.

Lemma eytzinger_index_past N r : 0 ≤ N ≤ r → eytzinger_index N r = 0.
Proof.
  intros Hr. unfold eytzinger_index. apply nth_overflow.
  rewrite inorder_length by lia. lia.
Qed.

Lemma eytzinger_index_inside arr e r :
  layout arr e → 0 ≤ r < Z.of_nat (length arr) →
  1 ≤ eytzinger_index (Z.of_nat (length arr)) r ≤ Z.of_nat (length arr)
  ∧ t e !! Z.to_nat (eytzinger_index (Z.of_nat (length arr)) r) = arr !! Z.to_nat r.
Proof.
  intros Hlay Hr. set (N := Z.of_nat (length arr)) in *.
  destruct (lookup_lt_is_Some_2 (inorder N) (Z.to_nat r)) as [k Ek].
  { rewrite inorder_length by lia. lia. }
  unfold eytzinger_index. rewrite (nth_lookup_Some _ _ _ _ Ek). split.
  - apply list_elem_of_lookup_2, inorder_walk_elem in Ek; [|done]. lia.
  - pose proof (layout_inorder _ _ Hlay) as Hin. fold N in Hin.
    apply (f_equal (λ l, l !! Z.to_nat r)) in Hin.
    rewrite !list_lookup_fmap, Ek in Hin. cbn in Hin.
    destruct (arr !! Z.to_nat r) eqn:Ea; cbn in Hin; [congruence|done].
Qed.

Lemma ascending_strongly arr : Sorted Z.le arr → StronglySorted Z.le arr.
Proof. apply Sorted_StronglySorted. intros a b c. apply Z.le_trans. Qed.

(** * The claims *)

(** C5. For every input of an admissible size (ascending or not), the
    constructor returns a structure whose store has length [N + 1] and in
    which the in-order walk of the implicit tree on the indices [1..N]
    (children of [k] at [2k] and [2k+1], root 1) reads the stored values in
    exactly the order of the input sequence. *)
Theorem inorder_walk_reproduces_input (arr : list Z) :
  size_ok arr →
  ∃ e, built arr e
    ∧ length (t e) = S (length arr)
    ∧ (λ k, t e !! Z.to_nat k) <$> inorder (Z.of_nat (length arr)) = Some <$> arr.
Proof.
  intros Hsz. destruct (Eytzinger_new_spec arr Hsz) as (e & ? & _ & ? & _ & _ & ?).
  by exists e.
Qed.

Lemma inorder_walk_reproduces_input_witness :
  size_ok [10; 20; 30; 40; 50]
  ∧ ∃ e, built [10; 20; 30; 40; 50] e
      ∧ length (t e) = 6%nat
      ∧ (λ k, t e !! Z.to_nat k) <$> inorder 5 = Some <$> [10; 20; 30; 40; 50].
Proof.
  split; [by vm_compute|].
  apply (inorder_walk_reproduces_input [10; 20; 30; 40; 50]). by vm_compute.
Defined.

(** C6. In a built structure, for every key [x], the fixed-iteration loop of
    [lower_bound_fixed_iter] runs [iters = floor(log2(N + 1))] times from
    [k = 1], every index it reads is in [1..N], it leaves the loop with
    [k <= 2N + 1], and the index of the guarded final read is inside the
    store. *)
Theorem fixed_iter_loop_in_bounds (arr : list Z) (e : Eytzinger) (x : Z) :
  size_ok arr → built arr e →
  iters e = Z.log2 (Z.of_nat (length arr) + 1)
  ∧ ∃ k reads,
      for_fixed_iter (Z.to_nat (iters e)) e x 1 = Done k reads
      ∧ length reads = Z.to_nat (iters e)
      ∧ Forall (λ j, 1 ≤ j ≤ Z.of_nat (length arr)) reads
      ∧ k ≤ 2 * Z.of_nat (length arr) + 1
      ∧ 0 ≤ (if decide (k ≤ n e) then k else 0) < Z.of_nat (length (t e)).
Proof.
  intros Hsz Hb. pose proof (built_layout arr e Hsz Hb) as Hlay.
  split; [apply (layout_iters _ _ Hlay)|].
  destruct (for_fixed_iter_root arr e Hlay x) as (k & rd & E & Hl & Hrd & _ & Hk).
  exists k, rd. split_and!; [done|done|done|lia| |].
  - case_decide; lia.
  - rewrite (layout_length _ _ Hlay), (layout_n _ _ Hlay). case_decide; lia.
Qed.

Lemma fixed_iter_loop_in_bounds_witness :
  size_ok [2; 4; 6]
  ∧ built [2; 4; 6] {| t := [-1; 4; 2; 6]; n := 3; iters := 2 |}
  ∧ ∃ k reads,
      for_fixed_iter 2 {| t := [-1; 4; 2; 6]; n := 3; iters := 2 |} 5 1 = Done k reads
      ∧ length reads = 2%nat
      ∧ Forall (λ j, 1 ≤ j ≤ 3) reads
      ∧ k ≤ 7.
Proof.
  assert (size_ok [2; 4; 6]) as Hsz by (by vm_compute).
  assert (built [2; 4; 6] {| t := [-1; 4; 2; 6]; n := 3; iters := 2 |}) as Hb
    by (by exists [0; 1; 2]).
  split_and!; [done|done|].
  destruct (fixed_iter_loop_in_bounds _ _ 5 Hsz Hb) as (_ & k & rd & ? & ? & ? & ? & _).
  by exists k, rd.
Defined.

(** C7. Prefetching never affects results: on a built structure and for
    every key, [lower_bound_prefetch] has the outcome of
    [lower_bound_original] and [lower_bound_fixed_iter_prefetch] the outcome
    of [lower_bound_fixed_iter] (same returned value, same reads). *)
Theorem prefetch_is_advisory (arr : list Z) (e : Eytzinger) (x : Z) :
  size_ok arr → built arr e →
  lower_bound_prefetch e x = lower_bound_original e x
  ∧ lower_bound_fixed_iter_prefetch e x = lower_bound_fixed_iter e x.
Proof.
  intros Hsz Hb. pose proof (built_layout arr e Hsz Hb) as Hlay. split.
  - apply lower_bound_prefetch_original; rewrite (layout_n _ _ Hlay);
      [lia|apply (layout_size _ _ Hlay)].
  - by apply (lower_bound_fixed_iter_prefetch_eq arr).
Qed.

Lemma prefetch_is_advisory_witness :
  size_ok [2; 4; 6]
  ∧ built [2; 4; 6] {| t := [-1; 4; 2; 6]; n := 3; iters := 2 |}
  ∧ lower_bound_prefetch {| t := [-1; 4; 2; 6]; n := 3; iters := 2 |} 5
    = lower_bound_original {| t := [-1; 4; 2; 6]; n := 3; iters := 2 |} 5
  ∧ lower_bound_fixed_iter_prefetch {| t := [-1; 4; 2; 6]; n := 3; iters := 2 |} 5
    = lower_bound_fixed_iter {| t := [-1; 4; 2; 6]; n := 3; iters := 2 |} 5.
Proof.
  assert (size_ok [2; 4; 6]) as Hsz by (by vm_compute).
  assert (built [2; 4; 6] {| t := [-1; 4; 2; 6]; n := 3; iters := 2 |}) as Hb
    by (by exists [0; 1; 2]).
  split_and!; [done|done|..]; by apply (prefetch_is_advisory [2; 4; 6]).
Defined.

(** C8. On an ascending sequence of an admissible size and for every key
    [x], [naive_binary_search] and [std_lower_bound] both return the number
    [r] of elements strictly less than [x]; [r] is in [0..N] and is the
    index of the first element not less than [x] ([N] when there is none):
    the elements below [x] are exactly those before position [r]. *)
Theorem reference_searches_return_rank (arr : list Z) (x : Z) :
  size_ok arr → Sorted Z.le arr →
  returns (naive_binary_search arr x) (rank arr x)
  ∧ returns (std_lower_bound arr x) (rank arr x)
  ∧ 0 ≤ rank arr x ≤ Z.of_nat (length arr)
  ∧ (∀ j a, arr !! j = Some a → a < x ↔ Z.of_nat j < rank arr x)
  ∧ arr !! Z.to_nat (rank arr x) = first_not_less arr x.
Proof.
  unfold size_ok. intros Hsz Hs%ascending_strongly. split_and!.
  - apply naive_binary_search_rank; [done|lia].
  - apply std_lower_bound_rank; [done|lia].
  - apply rank_range.
  - apply rank_range.
  - intros j a. by apply rank_lt_iff.
  - symmetry. by apply first_not_less_rank.
Qed.

Lemma reference_searches_return_rank_witness :
  size_ok [1; 3; 5; 7; 9; 11] ∧ Sorted Z.le [1; 3; 5; 7; 9; 11]
  ∧ returns (naive_binary_search [1; 3; 5; 7; 9; 11] 6) 3
  ∧ returns (std_lower_bound [1; 3; 5; 7; 9; 11] 6) 3.
Proof.
  assert (size_ok [1; 3; 5; 7; 9; 11]) as Hsz by (by vm_compute).
  assert (Sorted Z.le [1; 3; 5; 7; 9; 11]) as Hs by (repeat constructor; lia).
  split_and!; [done|done|..];
    by apply (reference_searches_return_rank [1; 3; 5; 7; 9; 11] 6).
Defined.

(** C9. [get_value] is total and bounds-checked: on a built structure
    (store length [N + 1]) and for every [int] index [i], it returns; it
    returns -1 when [i] is at or beyond the store length, and the stored
    value [t[i]] when [0 <= i <= N]. *)
Theorem get_value_total (arr : list Z) (e : Eytzinger) (i : Z) :
  size_ok arr → built arr e → INT_MIN ≤ i ≤ INT_MAX →
  (∃ v, returns (get_value e i) v)
  ∧ (Z.of_nat (length (t e)) ≤ i → returns (get_value e i) (-1))
  ∧ (0 ≤ i ≤ Z.of_nat (length arr) →
     ∃ v, t e !! Z.to_nat i = Some v ∧ returns (get_value e i) v).
Proof.
  intros Hsz Hb Hi. pose proof (built_layout arr e Hsz Hb) as Hlay.
  pose proof (layout_length _ _ Hlay) as Hlen.
  pose proof (layout_size _ _ Hlay) as HN.
  pose proof int_bounds as [Emin Emax].
  assert (∀ v, returns (mret v : outcome Z) v) as Hret by (by exists []).
  unfold get_value, to_size_t. split_and!.
  - case_decide as Hlt; [|by eexists].
    assert (0 ≤ i) as Hi0.
    { destruct (decide (0 ≤ i)); [done|].
      replace i with (i + 2 ^ 64 + (-1) * 2 ^ 64) in Hlt by lia.
      rewrite Z.mod_add, Z.mod_small in Hlt by lia. lia. }
    rewrite Z.mod_small in Hlt by lia.
    destruct (lookup_lt_is_Some_2 (t e) (Z.to_nat i)) as [v Ev]; [lia|].
    exists v, [i]. apply vec_get_ok; [lia|done].
  - intros Hge. rewrite Z.mod_small, decide_False by lia. apply Hret.
  - intros Hin. rewrite Z.mod_small, decide_True by lia.
    destruct (lookup_lt_is_Some_2 (t e) (Z.to_nat i)) as [v Ev]; [lia|].
    exists v. split; [done|]. exists [i]. apply vec_get_ok; [lia|done].
Qed.

Lemma get_value_total_witness :
  size_ok [2; 4; 6]
  ∧ built [2; 4; 6] {| t := [-1; 4; 2; 6]; n := 3; iters := 2 |}
  ∧ INT_MIN ≤ 4 ≤ INT_MAX
  ∧ returns (get_value {| t := [-1; 4; 2; 6]; n := 3; iters := 2 |} 4) (-1).
Proof.
  assert (size_ok [2; 4; 6]) as Hsz by (by vm_compute).
  assert (built [2; 4; 6] {| t := [-1; 4; 2; 6]; n := 3; iters := 2 |}) as Hb
    by (by exists [0; 1; 2]).
  assert (INT_MIN ≤ 4 ≤ INT_MAX) as Hi by (by vm_compute).
  split_and!; [done|done|apply Hi|apply Hi|].
  destruct (get_value_total _ _ 4 Hsz Hb Hi) as (_ & H & _). apply H. by vm_compute.
Defined.

(** C10. On a structure built from an ascending sequence and for every key
    [x], [lower_bound_original] returns an [r] with [0 <= r <= N]; [r = 0]
    if and only if every element of the sequence is strictly less than [x];
    otherwise [t[r]] is the first element of the sequence that is not less
    than [x]: [r] is the store index of the lower bound, not its rank. *)
Theorem lower_bound_original_store_index (arr : list Z) (e : Eytzinger) (x : Z) :
  size_ok arr → Sorted Z.le arr → built arr e →
  ∃ r, returns (lower_bound_original e x) r
    ∧ 0 ≤ r ≤ Z.of_nat (length arr)
    ∧ (r = 0 ↔ Forall (λ a, a < x) arr)
    ∧ (r ≠ 0 → ∃ v, first_not_less arr x = Some v ∧ t e !! Z.to_nat r = Some v).
Proof.
  intros Hsz Hs%ascending_strongly Hb.
  pose proof (built_layout arr e Hsz Hb) as Hlay.
  destruct (lower_bound_original_index arr e Hlay x Hs) as (rd & E & _).
  pose proof (rank_range x arr) as Hr.
  set (N := Z.of_nat (length arr)) in *. set (q := rank arr x) in *.
  exists (eytzinger_index N q). split; [by exists rd|].
  destruct (decide (q < N)) as [Hlt|Hge].
  - destruct (eytzinger_index_inside arr e q Hlay ltac:(fold N; lia)) as [Hk Ht].
    fold N in Hk, Ht. split_and!; [lia|lia| |].
    + split; [lia|]. intros Hall%rank_full. fold q N in Hall. lia.
    + intros _. destruct (lookup_lt_is_Some_2 arr (Z.to_nat q)) as [v Ev]; [lia|].
      exists v. rewrite first_not_less_rank by done. fold q. by rewrite Ht.
  - assert (q = N) as Eq by lia.
    rewrite eytzinger_index_past by lia. split_and!; [lia|lia| |done].
    split; [|done]. intros _. by apply rank_full.
Qed.

Lemma lower_bound_original_store_index_witness :
  size_ok [1; 3; 5; 7; 9; 11] ∧ Sorted Z.le [1; 3; 5; 7; 9; 11]
  ∧ built [1; 3; 5; 7; 9; 11] {| t := [-1; 7; 3; 11; 1; 5; 9]; n := 6; iters := 2 |}
  ∧ ∃ r, returns (lower_bound_original
                    {| t := [-1; 7; 3; 11; 1; 5; 9]; n := 6; iters := 2 |} 6) r
      ∧ 0 ≤ r ≤ 6.
Proof.
  assert (size_ok [1; 3; 5; 7; 9; 11]) as Hsz by (by vm_compute).
  assert (Sorted Z.le [1; 3; 5; 7; 9; 11]) as Hs by (repeat constructor; lia).
  assert (built [1; 3; 5; 7; 9; 11]
            {| t := [-1; 7; 3; 11; 1; 5; 9]; n := 6; iters := 2 |}) as Hb
    by (by exists [0; 1; 2; 3; 4; 5]).
  split_and!; [done|done|done|].
  destruct (lower_bound_original_store_index _ _ 6 Hsz Hs Hb) as (r & ? & ? & _).
  by exists r.
Defined.

(** C1, as amended.  On an ascending sequence of an admissible size and for
    every key [x]: [naive_binary_search] and [std_lower_bound] return the
    rank [r] of [x] (the number of elements strictly less than [x]), a value
    in [0..N]; [lower_bound_original] and [lower_bound_prefetch] return one
    same value [k] in [0..N], which is not the rank but the store index of
    the element of rank [r] ([t[k]] is that element, and [k = 0] when
    [r = N]); [lower_bound_fixed_iter] and [lower_bound_fixed_iter_prefetch]
    return that same [k] for every key above the sentinel, [x > -1]. *)
Theorem lower_bound_agreement (arr : list Z) (e : Eytzinger) (x : Z) :
  size_ok arr → Sorted Z.le arr → built arr e →
  ∃ r k,
    r = rank arr x ∧ 0 ≤ r ≤ Z.of_nat (length arr)
    ∧ returns (naive_binary_search arr x) r
    ∧ returns (std_lower_bound arr x) r
    ∧ k = eytzinger_index (Z.of_nat (length arr)) r ∧ 0 ≤ k ≤ Z.of_nat (length arr)
    ∧ (r < Z.of_nat (length arr) → 1 ≤ k ∧ t e !! Z.to_nat k = arr !! Z.to_nat r)
    ∧ (r = Z.of_nat (length arr) → k = 0)
    ∧ returns (lower_bound_original e x) k
    ∧ returns (lower_bound_prefetch e x) k
    ∧ (-1 < x → returns (lower_bound_fixed_iter e x) k
                ∧ returns (lower_bound_fixed_iter_prefetch e x) k).
Proof.
  intros Hsz Hs%ascending_strongly Hb.
  pose proof (built_layout arr e Hsz Hb) as Hlay.
  pose proof (layout_size _ _ Hlay) as HN.
  pose proof (rank_range x arr) as Hr.
  destruct (lower_bound_original_index arr e Hlay x Hs) as (rd & E & _).
  set (N := Z.of_nat (length arr)) in *.
  assert (0 ≤ eytzinger_index N (rank arr x) ≤ N
          ∧ (rank arr x < N →
             1 ≤ eytzinger_index N (rank arr x)
             ∧ t e !! Z.to_nat (eytzinger_index N (rank arr x))
               = arr !! Z.to_nat (rank arr x))
          ∧ (rank arr x = N → eytzinger_index N (rank arr x) = 0))
    as (Hk & Hin & Hpast).
  { destruct (decide (rank arr x < N)) as [Hlt|Hge].
    - destruct (eytzinger_index_inside arr e (rank arr x) Hlay) as [Hk Ht];
        [fold N; lia|]. fold N in Hk, Ht.
      split_and!; [lia|lia|intros _; split; [lia|done]|lia].
    - rewrite eytzinger_index_past by lia.
      split_and!; [lia|lia|intros ?; lia|done]. }
  exists (rank arr x), (eytzinger_index N (rank arr x)).
  split_and!; try done; try lia.
  - apply naive_binary_search_rank; [done|fold N; lia].
  - apply std_lower_bound_rank; [done|fold N; lia].
  - by exists rd.
  - exists rd. rewrite lower_bound_prefetch_original; [done| |];
      rewrite (layout_n _ _ Hlay); fold N; lia.
  - intros Hx. split.
    + by apply (lower_bound_fixed_iter_index arr).
    + rewrite (lower_bound_fixed_iter_prefetch_eq arr) by done.
      by apply (lower_bound_fixed_iter_index arr).
Qed.

Lemma lower_bound_agreement_witness :
  size_ok [1; 3; 5; 7; 9; 11] ∧ Sorted Z.le [1; 3; 5; 7; 9; 11]
  ∧ built [1; 3; 5; 7; 9; 11] {| t := [-1; 7; 3; 11; 1; 5; 9]; n := 6; iters := 2 |}
  ∧ ∃ r k,
      returns (std_lower_bound [1; 3; 5; 7; 9; 11] 6) r
      ∧ returns (lower_bound_original
                   {| t := [-1; 7; 3; 11; 1; 5; 9]; n := 6; iters := 2 |} 6) k.
Proof.
  assert (size_ok [1; 3; 5; 7; 9; 11]) as Hsz by (by vm_compute).
  assert (Sorted Z.le [1; 3; 5; 7; 9; 11]) as Hs by (repeat constructor; lia).
  assert (built [1; 3; 5; 7; 9; 11]
            {| t := [-1; 7; 3; 11; 1; 5; 9]; n := 6; iters := 2 |}) as Hb
    by (by exists [0; 1; 2; 3; 4; 5]).
  split_and!; [done|done|done|].
  destruct (lower_bound_agreement _ _ 6 Hsz Hs Hb)
    as (r & k & _ & _ & _ & ? & _ & _ & _ & _ & ? & _).
  by exists r, k.
Defined.

(** C1, as stated, fails: on [1,3,5,7,9,11] and the key 5 the rank is 2,
    [std_lower_bound] returns 2, and [lower_bound_original] returns the
    store index 5. *)
Lemma eytzinger_queries_do_not_return_rank :
  built [1; 3; 5; 7; 9; 11] {| t := [-1; 7; 3; 11; 1; 5; 9]; n := 6; iters := 2 |}
  ∧ rank [1; 3; 5; 7; 9; 11] 5 = 2
  ∧ returns (std_lower_bound [1; 3; 5; 7; 9; 11] 5) 2
  ∧ returns (lower_bound_original
               {| t := [-1; 7; 3; 11; 1; 5; 9]; n := 6; iters := 2 |} 5) 5
  ∧ ¬ returns (lower_bound_original
                 {| t := [-1; 7; 3; 11; 1; 5; 9]; n := 6; iters := 2 |} 5)
              (rank [1; 3; 5; 7; 9; 11] 5).
Proof.
  split_and!.
  - by exists [0; 1; 2; 3; 4; 5].
  - reflexivity.
  - by exists [3; 1; 2].
  - by exists [1; 2; 5].
  - intros [rd E]. vm_compute in E. discriminate E.
Qed.

(** C2, as amended.  On the structure built from [1,3,5,7,9,11]: for the
    keys 5, 6, 0, 12 and 1, [naive_binary_search] and [std_lower_bound]
    return the ranks 2, 3, 0, 6 and 0, and the four Eytzinger queries agree
    with each other and return the store indices 5, 1, 4, 0 and 4 of the
    elements of those ranks (0: past the end). *)
Theorem scenario_six_elements :
  ∃ e, built [1; 3; 5; 7; 9; 11] e
    ∧ Forall (λ '(x, r, k),
        returns (naive_binary_search [1; 3; 5; 7; 9; 11] x) r
        ∧ returns (std_lower_bound [1; 3; 5; 7; 9; 11] x) r
        ∧ [1; 3; 5; 7; 9; 11] !! Z.to_nat r = (if decide (k = 0) then None else t e !! Z.to_nat k)
        ∧ returns (lower_bound_original e x) k
        ∧ returns (lower_bound_fixed_iter e x) k
        ∧ returns (lower_bound_prefetch e x) k
        ∧ returns (lower_bound_fixed_iter_prefetch e x) k)
      [(5, 2, 5); (6, 3, 1); (0, 0, 4); (12, 6, 0); (1, 0, 4)].
Proof.
  exists {| t := [-1; 7; 3; 11; 1; 5; 9]; n := 6; iters := 2 |}. split.
  - by exists [0; 1; 2; 3; 4; 5].
  - repeat constructor; by (reflexivity || (eexists; vm_compute; reflexivity)).
Qed.

(** C2, as stated, fails: the key 5 has rank 2 in [1,3,5,7,9,11], and
    [lower_bound_original] returns 5, the store index of the element 5. *)
Lemma scenario_key_5_returns_store_index :
  built [1; 3; 5; 7; 9; 11] {| t := [-1; 7; 3; 11; 1; 5; 9]; n := 6; iters := 2 |}
  ∧ lower_bound_original {| t := [-1; 7; 3; 11; 1; 5; 9]; n := 6; iters := 2 |} 5
    = Done 5 [1; 2; 5]
  ∧ ¬ returns (lower_bound_original
                 {| t := [-1; 7; 3; 11; 1; 5; 9]; n := 6; iters := 2 |} 5) 2.
Proof.
  split_and!.
  - by exists [0; 1; 2; 3; 4; 5].
  - reflexivity.
  - intros [rd E]. vm_compute in E. discriminate E.
Qed.

(** C3.  The sentinel is -1, which is not below the keys [x <= -1].  On the
    structure built from [2,4,6] and the key -5 the guarded final step of
    the fixed-iteration queries reads [t[0] = -1], goes left, and the
    queries return 4, outside [0..3]; [lower_bound_original] returns 2. *)
Theorem sentinel_not_below_negative_keys :
  ∃ e, built [2; 4; 6] e
    ∧ t e !! 0%nat = Some (-1)
    ∧ bool_decide (-1 < -5) = false
    ∧ lower_bound_fixed_iter e (-5) = Done 4 [1; 2; 0]
    ∧ lower_bound_fixed_iter_prefetch e (-5) = Done 4 [1; 2; 0]
    ∧ lower_bound_original e (-5) = Done 2 [1; 2]
    ∧ lower_bound_prefetch e (-5) = Done 2 [1; 2].
Proof.
  exists {| t := [-1; 4; 2; 6]; n := 3; iters := 2 |}. split_and!; try reflexivity.
  by exists [0; 1; 2].
Qed.

(** C4.  On the structure built from the empty sequence, for every key [x]:
    [lower_bound_original], [lower_bound_prefetch], [naive_binary_search]
    and [std_lower_bound] return 0 and read nothing; the fixed-iteration
    queries read the store index 0 only, and return 0 for the keys above the
    sentinel and 1 for the keys [x <= -1]. *)
Theorem empty_structure_queries :
  ∃ e, built [] e
    ∧ ∀ x,
        lower_bound_original e x = Done 0 []
        ∧ lower_bound_prefetch e x = Done 0 []
        ∧ naive_binary_search [] x = Done 0 []
        ∧ std_lower_bound [] x = Done 0 []
        ∧ lower_bound_fixed_iter e x = Done (if decide (-1 < x) then 0 else 1) [0]
        ∧ lower_bound_fixed_iter_prefetch e x
          = Done (if decide (-1 < x) then 0 else 1) [0].
Proof.
  exists {| t := [-1]; n := 0; iters := 0 |}. split; [by exists []|].
  intros x. split_and!; try reflexivity.
  - unfold lower_bound_fixed_iter. cbn [iters t n].
    change (for_fixed_iter (Z.to_nat 0) ?e x 1) with (mret 1 : outcome Z).
    rewrite bind_ret_l. rewrite decide_False by lia.
    change (vec_get [-1] 0) with (Done (-1) [0]). rewrite bind_Done.
    destruct (decide (-1 < x)) as [Hx|Hx].
    + by rewrite bool_decide_eq_true_2.
    + by rewrite bool_decide_eq_false_2.
  - unfold lower_bound_fixed_iter_prefetch.
    cbn [iters t n].
    change (for_fixed_iter_prefetch (Z.to_nat 0) ?e x 1) with (mret 1 : outcome Z).
    rewrite bind_ret_l. rewrite decide_False by lia.
    change (vec_get [-1] 0) with (Done (-1) [0]). rewrite bind_Done.
    destruct (decide (-1 < x)) as [Hx|Hx].
    + by rewrite bool_decide_eq_true_2.
    + by rewrite bool_decide_eq_false_2.
Qed.


(** * Further properties of the code *)

(** ** [lg] *)

(** X1. [lg] on an [int]: -1 at 0, 31 on the negative values, and the
    floor of the binary logarithm on the positive ones. *)
Theorem lg_floor_log2 (v : Z) :
  INT_MIN ≤ v ≤ INT_MAX →
  (v = 0 → lg v = -1)
  ∧ (v < 0 → lg v = 31)
  ∧ (0 < v → 0 ≤ lg v ≤ 30 ∧ 2 ^ lg v ≤ v < 2 ^ (lg v + 1)).
Proof.
  intros Hv. pose proof int_bounds as [Emin Emax]. split_and!.
  - by intros ->.
  - intros Hneg. unfold lg, builtin_clz. rewrite decide_False by lia.
    change (clz_from 32 v) with (if Z.testbit v 31 then 0 else 1 + clz_from 31 v).
    assert (Z.testbit v 31 = true) as ->; [|done].
    apply Z.testbit_true; [lia|].
    change (2 ^ 31) with 2147483648. Z.div_mod_to_equations. lia.
  - intros Hpos. rewrite lg_log2 by lia.
    pose proof (Z.log2_nonneg v).
    destruct (Z.log2_spec v Hpos) as [Hlo Hhi].
    split_and!; [done| |done|by rewrite Z.add_1_r].
    assert (Z.log2 v < 31); [|lia].
    apply Z.log2_lt_pow2; [done|]. change (2 ^ 31) with 2147483648. lia.
Qed.

Lemma lg_floor_log2_witness :
  INT_MIN ≤ 6000001 ≤ INT_MAX ∧ lg 6000001 = 22.
Proof.
  assert (INT_MIN ≤ 6000001 ≤ INT_MAX) as Hv by (by vm_compute).
  split; [apply Hv|].
  destruct (lg_floor_log2 6000001 Hv) as (_ & _ & H).
  destruct (H ltac:(lia)) as (_ & _). reflexivity.
Defined.

(** ** Index recovery *)

(** X2. The index recovery [k >>= __builtin_ffs(~k)] strips the trailing
    one bits of [k] and the zero bit above them: on [2k] it gives [k], on
    [2k + 1] what it gives on [k]; the [int] and the [long] form agree. *)
Theorem index_recovery (k : Z) :
  0 ≤ k → 2 * k + 1 < INT_MAX →
  restore_int (2 * k) = Done k []
  ∧ restore_int (2 * k + 1) = restore_int k
  ∧ restore_long (2 * k) = Done k []
  ∧ restore_long (2 * k + 1) = restore_long k.
Proof.
  intros Hk Hlt.
  rewrite !restore_int_ok, !restore_long_ok by lia.
  by rewrite restore_even, restore_odd.
Qed.

Lemma index_recovery_witness :
  0 ≤ 5 ∧ 2 * 5 + 1 < INT_MAX
  ∧ restore_int (2 * 5) = Done 5 [] ∧ restore_int (2 * 5 + 1) = restore_int 5.
Proof.
  assert (0 ≤ 5) as H0 by lia.
  assert (2 * 5 + 1 < INT_MAX) as H by (by vm_compute).
  destruct (index_recovery 5 H0 H) as (E1 & E2 & _).
  split_and!; [apply H0|apply H|apply E1|apply E2].
Defined.

(** ** [get_value] *)

(** X3. On every structure, built or not, [get_value] never reads outside
    the store: for an [int] index that is negative or at or beyond the store
    length it returns -1 without reading, and for an index inside the store
    it returns the stored value. *)
Theorem get_value_never_out_of_bounds (e : Eytzinger) (i : Z) :
  INT_MIN ≤ i ≤ INT_MAX → Z.of_nat (length (t e)) ≤ INT_MAX →
  (i < 0 ∨ Z.of_nat (length (t e)) ≤ i → get_value e i = Done (-1) [])
  ∧ (0 ≤ i < Z.of_nat (length (t e)) →
     ∃ v, t e !! Z.to_nat i = Some v ∧ get_value e i = Done v [i]).
Proof.
  intros Hi Hlen. pose proof int_bounds as [Emin Emax].
  unfold get_value, to_size_t. split.
  - intros [Hneg|Hge].
    + replace i with (i + 2 ^ 64 + (-1) * 2 ^ 64) by lia.
      rewrite Z.mod_add, Z.mod_small, decide_False by lia. done.
    + by rewrite Z.mod_small, decide_False by lia.
  - intros Hin. rewrite Z.mod_small, decide_True by lia.
    destruct (lookup_lt_is_Some_2 (t e) (Z.to_nat i)) as [v Ev]; [lia|].
    exists v. split; [done|]. apply vec_get_ok; [lia|done].
Qed.

Lemma get_value_never_out_of_bounds_witness :
  INT_MIN ≤ -3 ≤ INT_MAX
  ∧ get_value {| t := [-1; 4; 2; 6]; n := 3; iters := 2 |} (-3) = Done (-1) [].
Proof.
  assert (INT_MIN ≤ -3 ≤ INT_MAX) as Hi by (by vm_compute).
  split; [apply Hi|].
  destruct (get_value_never_out_of_bounds
              {| t := [-1; 4; 2; 6]; n := 3; iters := 2 |} (-3) Hi) as [H _].
  - by vm_compute.
  - apply H. left. lia.
Defined.

(** ** The constructor *)

Lemma int_arith_Done z a r : int_arith z = Done a r → a = z ∧ r = [].
Proof. unfold int_arith. case_decide; [|done]. by intros [= <- <-]. Qed.

Lemma vec_get_Done v i a r : vec_get v i = Done a r → r = [i].
Proof.
  unfold vec_get. case_decide; [|done].
  destruct (v !! Z.to_nat i); [|done]. by intros [= _ <-].
Qed.

Lemma vec_set_Done v i a v' r :
  vec_set v i a = Done v' r → v' = <[Z.to_nat i := a]> v ∧ r = [].
Proof. unfold vec_set. case_decide; [|done]. by intros [= <- <-]. Qed.

(** The reads of [eytzinger(arr, i, k)] are the positions of [arr] from the
    cursor [i] up to the returned cursor, in order. *)
Lemma eytzinger_reads fuel N arr t0 i k t1 i' rd :
  eytzinger fuel N arr t0 i k = Done (t1, i') rd →
  i ≤ i' ∧ rd = seqZ i (i' - i).
Proof.
  revert t0 i k t1 i' rd. induction fuel as [|fuel IH];
    intros t0 i k t1 i' rd E; [done|].
  rewrite eytzinger_S_unfold in E. case_decide as HkN.
  2:{ injection E as <- <- <-. split; [lia|]. by rewrite Z.sub_diag. }
  apply bind_Done_inv in E as (k2 & r0 & r0' & [-> ->]%int_arith_Done & E & ->).
  apply bind_Done_inv in E as ([ta ia] & r1 & r1' & E1 & E & ->).
  apply IH in E1 as [Hia ->].
  apply bind_Done_inv in E as (a & r2 & r2' & ->%vec_get_Done & E & ->).
  apply bind_Done_inv in E as (i2 & r3 & r3' & [-> ->]%int_arith_Done & E & ->).
  apply bind_Done_inv in E as (t2 & r4 & r4' & [_ ->]%vec_set_Done & E & ->).
  apply bind_Done_inv in E as (k3 & r5 & r5' & [-> ->]%int_arith_Done & E & ->).
  apply IH in E as [Hi' ->]. split; [lia|]. cbn [app].
  replace (i' - i) with ((ia - i) + (1 + (i' - (ia + 1)))) by lia.
  rewrite seqZ_app by lia. f_equal.
  replace (i + (ia - i)) with ia by lia.
  rewrite (seqZ_cons ia) by lia. f_equal. f_equal; lia.
Qed.

(** X4. On every input of an admissible size the constructor returns after
    reading each element of the input exactly once, in order; the structure
    it returns has [n = N], [size()] gives [N] back, and
    [iters = floor(log2(N + 1))]. *)
Theorem constructor_reads_input_once (arr : list Z) :
  size_ok arr →
  ∃ e, Eytzinger_new arr = Done e (seqZ 0 (Z.of_nat (length arr)))
    ∧ n e = Z.of_nat (length arr)
    ∧ Eytzinger_size e = Z.of_nat (length arr)
    ∧ 2 ^ iters e ≤ Z.of_nat (length arr) + 1 < 2 ^ (iters e + 1).
Proof.
  intros Hsz. destruct (Eytzinger_new_spec arr Hsz) as (e & [rd E] & Hn & _ & _ & Hit & _).
  pose proof int_bounds as [Emin Emax]. unfold size_ok in Hsz.
  set (N := Z.of_nat (length arr)) in *.
  assert (0 ≤ N) as HN0 by (unfold N; lia).
  exists e. split_and!.
  - rewrite E. f_equal.
    assert (deep_enough N 31 1) as Hf by (apply deep_enough_depth_fuel; lia).
    assert (2 * N + 1 ≤ INT_MAX) as HN2 by lia.
    assert (1 ≤ 1) as H1 by lia.
    pose proof (inorder_walk_length N 31 HN0 Hf) as Hwl.
    set (t0 := <[Z.to_nat 0 := -1]> (replicate (Z.to_nat (N + 1)) 0)).
    pose proof (eytzinger_layout arr HN2 31 1 t0 0 H1 Hf) as Hlay.
    cbv zeta in Hlay. fold N in Hlay.
    destruct Hlay as (t1 & rd1 & E1 & _); [|lia|lia|].
    { unfold t0. rewrite length_insert, length_replicate. lia. }
    pose proof (eytzinger_reads _ _ _ _ _ _ _ _ _ E1) as [_ Hrd].
    assert (Eytzinger_new arr
            = Done {| t := t1; n := N; iters := lg (N + 1) |} ([] ++ [] ++ rd1 ++ []))
      as Efwd.
    { unfold Eytzinger_new. fold N. rewrite to_int_id by lia.
      eapply bind_Done_eq; [apply int_arith_ok; lia|].
      rewrite decide_True by lia.
      eapply bind_Done_eq.
      { apply vec_set_ok. rewrite length_replicate. lia. }
      fold t0. eapply bind_Done_eq; [exact E1|]. reflexivity. }
    rewrite Efwd in E. injection E as _ <-.
    cbn [app]. rewrite app_nil_r, Hrd, Hwl. f_equal. lia.
  - done.
  - unfold Eytzinger_size, to_size_t. rewrite Hn. apply Z.mod_small. lia.
  - rewrite Hit. apply Z.log2_spec. lia.
  - rewrite Hit, Z.add_1_r. apply Z.log2_spec. lia.
Qed.

Lemma constructor_reads_input_once_witness :
  size_ok [2; 4; 6]
  ∧ ∃ e, Eytzinger_new [2; 4; 6] = Done e [0; 1; 2] ∧ Eytzinger_size e = 3.
Proof.
  assert (size_ok [2; 4; 6]) as Hsz by (by vm_compute).
  split; [apply Hsz|].
  destruct (constructor_reads_input_once [2; 4; 6] Hsz) as (e & E & _ & Hs & _).
  by exists e.
Defined.

Lemma inorder_permutation N : 0 ≤ N → inorder N ≡ₚ seqZ 1 N.
Proof.
  intros HN. apply NoDup_Permutation.
  - by apply inorder_walk_NoDup.
  - apply NoDup_seqZ.
  - intros j. rewrite elem_of_seqZ. split.
    + intros Hj%inorder_walk_elem; lia.
    + intros Hj. apply inorder_walk_cover; [by apply deep_enough_inorder|lia].
Qed.

(** X5. The store of a built structure holds, at the indices [1..N], a
    permutation of the input (ascending or not): every element is stored
    exactly once. *)
Theorem store_is_permutation_of_input (arr : list Z) (e : Eytzinger) :
  size_ok arr → built arr e → drop 1 (t e) ≡ₚ arr.
Proof.
  intros Hsz Hb. pose proof (built_layout arr e Hsz Hb) as Hlay.
  pose proof (layout_length _ _ Hlay) as Hlen.
  set (N := Z.of_nat (length arr)).
  rewrite <- (store_val_inorder arr e Hlay). fold N.
  rewrite (inorder_permutation N) by (unfold N; lia).
  assert (drop 1 (t e) = store_val e <$> seqZ 1 N) as ->; [|done].
  apply list_eq. intros p. rewrite lookup_drop, list_lookup_fmap.
  destruct (decide (Z.of_nat p < N)) as [Hp|Hp].
  - rewrite lookup_seqZ_lt by done. cbn.
    rewrite <- (store_val_lookup arr e Hlay) by (fold N; lia).
    f_equal. lia.
  - rewrite lookup_seqZ_ge by lia. cbn. apply lookup_ge_None_2. unfold N in Hp. lia.
Qed.

Lemma store_is_permutation_of_input_witness :
  size_ok [2; 4; 6]
  ∧ built [2; 4; 6] {| t := [-1; 4; 2; 6]; n := 3; iters := 2 |}
  ∧ [4; 2; 6] ≡ₚ [2; 4; 6].
Proof.
  assert (size_ok [2; 4; 6]) as Hsz by (by vm_compute).
  assert (built [2; 4; 6] {| t := [-1; 4; 2; 6]; n := 3; iters := 2 |}) as Hb
    by (by exists [0; 1; 2]).
  split_and!; [apply Hsz|apply Hb|].
  apply (store_is_permutation_of_input [2; 4; 6] _ Hsz Hb).
Defined.

(** ** The search-tree order of the store *)

Lemma deep_enough_subtree N k : 0 ≤ N → 1 ≤ k → deep_enough N (Z.to_nat N) k.
Proof.
  intros HN Hk. pose proof (deep_enough_inorder N HN) as H1.
  unfold deep_enough in *. pose proof (pow2_pos (Z.to_nat N)). nia.
Qed.

Section search_tree.
Context (e : Eytzinger) (N : Z) (HN : 0 ≤ N).

(** When the values along the walk below [k] ascend, every index of that
    walk has its left subtree at or below it and its right subtree at or
    above it. *)
Lemma walk_ascending_subtrees f k :
  1 ≤ k → deep_enough N f k →
  StronglySorted Z.le (store_val e <$> inorder_walk f N k) →
  ∀ k' j, k' ∈ inorder_walk f N k →
    (j ∈ subtree N (2 * k') → store_val e j ≤ store_val e k')
    ∧ (j ∈ subtree N (2 * k' + 1) → store_val e k' ≤ store_val e j).
Proof.
  revert k. induction f as [|f IH]; intros k Hk Hf Hs k' j Hk';
    [by apply elem_of_nil in Hk'|].
  rewrite inorder_walk_S in Hs, Hk'.
  destruct (decide (k ≤ N)) as [HkN|]; [|by apply elem_of_nil in Hk'].
  destruct (deep_enough_child N _ k Hk HkN Hf) as (f1 & [= <-] & Hfl & Hfr).
  rewrite fmap_app, fmap_cons in Hs.
  apply StronglySorted_app in Hs as (HLR & HsL & [HkR HsR]%StronglySorted_cons).
  apply elem_of_app in Hk' as [Hk'|Hk']; [|apply elem_of_cons in Hk' as [->|Hk']].
  - apply (IH (2 * k)); (done || lia).
  - unfold subtree. split; intros Hj.
    + rewrite (inorder_walk_fuel N _ f (2 * k)) in Hj;
        [|lia|apply deep_enough_subtree; lia|done].
      apply (HLR (store_val e j) (store_val e k)); [|left].
      by apply list_elem_of_fmap_2.
    + rewrite (inorder_walk_fuel N _ f (2 * k + 1)) in Hj;
        [|lia|apply deep_enough_subtree; lia|done].
      rewrite Forall_forall in HkR. apply HkR. by apply list_elem_of_fmap_2.
  - apply (IH (2 * k + 1)); (done || lia).
Qed.
End search_tree.

(** X6. The store built from an ascending sequence is a search tree: for
    every index [k] of [1..N], every value stored in the subtree of the left
    child [2k] is at most [t[k]], and every value stored in the subtree of
    the right child [2k + 1] is at least [t[k]]; so are the children
    themselves. *)
Theorem store_is_search_tree (arr : list Z) (e : Eytzinger) (k j a b : Z) :
  size_ok arr → Sorted Z.le arr → built arr e →
  1 ≤ k ≤ Z.of_nat (length arr) →
  t e !! Z.to_nat k = Some a → t e !! Z.to_nat j = Some b →
  (j ∈ subtree (Z.of_nat (length arr)) (2 * k) → b ≤ a)
  ∧ (j ∈ subtree (Z.of_nat (length arr)) (2 * k + 1) → a ≤ b)
  ∧ (j = 2 * k → b ≤ a)
  ∧ (j = 2 * k + 1 → a ≤ b).
Proof.
  intros Hsz Hs%ascending_strongly Hb Hk Ea Eb.
  pose proof (built_layout arr e Hsz Hb) as Hlay.
  pose proof (layout_length _ _ Hlay) as Hlen.
  set (N := Z.of_nat (length arr)) in *.
  assert (0 ≤ N) as HN by (unfold N; lia).
  assert (store_val e k = a) as Hva by (unfold store_val; by rewrite Ea).
  assert (store_val e j = b) as Hvb by (unfold store_val; by rewrite Eb).
  assert (StronglySorted Z.le (store_val e <$> inorder_walk (Z.to_nat N) N 1)) as Hs'.
  { change (inorder_walk (Z.to_nat N) N 1) with (inorder N). unfold N.
    by rewrite (store_val_inorder arr e Hlay). }
  assert (1 ≤ 1) as H1 by lia.
  pose proof (walk_ascending_subtrees e N HN (Z.to_nat N) 1 H1
                (deep_enough_inorder N HN) Hs' k j
                (inorder_walk_cover N _ k (deep_enough_inorder N HN) Hk)) as Hw.
  rewrite Hva, Hvb in Hw. destruct Hw as [Hl Hr].
  assert (j < Z.of_nat (length (t e))) as Hj.
  { apply lookup_lt_Some in Eb. destruct (decide (0 ≤ j)); lia. }
  split_and!; [done|done|..]; intros ->.
  - apply Hl. unfold subtree.
    destruct (deep_enough_child N _ (2 * k) ltac:(lia) ltac:(lia)
                (deep_enough_subtree N (2 * k) HN ltac:(lia))) as (f' & -> & _).
    apply inorder_walk_root. lia.
  - apply Hr. unfold subtree.
    destruct (deep_enough_child N _ (2 * k + 1) ltac:(lia) ltac:(lia)
                (deep_enough_subtree N (2 * k + 1) HN ltac:(lia))) as (f' & -> & _).
    apply inorder_walk_root. lia.
Qed.

Lemma store_is_search_tree_witness :
  size_ok [1; 3; 5; 7; 9; 11] ∧ Sorted Z.le [1; 3; 5; 7; 9; 11]
  ∧ built [1; 3; 5; 7; 9; 11] {| t := [-1; 7; 3; 11; 1; 5; 9]; n := 6; iters := 2 |}
  ∧ (5 ∈ subtree 6 (2 * 1) → 5 ≤ 7).
Proof.
  assert (size_ok [1; 3; 5; 7; 9; 11]) as Hsz by (by vm_compute).
  assert (Sorted Z.le [1; 3; 5; 7; 9; 11]) as Hs by (repeat constructor; lia).
  assert (built [1; 3; 5; 7; 9; 11]
            {| t := [-1; 7; 3; 11; 1; 5; 9]; n := 6; iters := 2 |}) as Hb
    by (by exists [0; 1; 2; 3; 4; 5]).
  split_and!; [apply Hsz|apply Hs|apply Hb|].
  assert (1 ≤ 1 ≤ Z.of_nat (length [1; 3; 5; 7; 9; 11])) as Hk by (cbn; lia).
  destruct (store_is_search_tree _ _ 1 5 7 5 Hsz Hs Hb Hk eq_refl eq_refl) as (H & _).
  exact H.
Defined.

(** ** The queries on any built structure *)

Lemma restore_half k : 0 ≤ k < INT_MAX → 0 ≤ restore k ≤ k `div` 2.
Proof.
  intros Hk. assert (0 ≤ k) as Hk0 by lia.
  pose proof (restore_range k Hk0). split; [lia|].
  unfold restore. apply shiftr_half_le; [lia|].
  pose proof (ffs_lnot_range k Hk). lia.
Qed.

Section any_input.
Context (arr : list Z) (e : Eytzinger) (Hlay : layout arr e) (x : Z).
Let N : Z := Z.of_nat (length arr).

(** The [while] loop of [lower_bound_original] is the fixed-iteration loop
    followed by at most one more iteration; no order of the input is
    assumed. *)
Lemma while_original_path :
  ∃ kf rd,
    for_fixed_iter (Z.to_nat (iters e)) e x 1 = Done kf rd
    ∧ length rd = Z.to_nat (iters e)
    ∧ Forall (λ j, 1 ≤ j ≤ N) rd
    ∧ 1 ≤ kf ≤ 2 * N + 1 ∧ N + 1 < 2 * kf
    ∧ while_original depth_fuel e x 1 =
        if decide (kf ≤ N)
        then Done (2 * kf + Z.b2z (bool_decide (store_val e kf < x))) (rd ++ [kf])
        else Done kf rd.
Proof.
  pose proof (layout_size _ _ Hlay) as Hsz. fold N in Hsz.
  pose proof (layout_n _ _ Hlay) as Hn. fold N in Hn.
  pose proof int_bounds as [Emin Emax].
  pose proof (for_fixed_iter_root arr e Hlay x) as Hroot. cbv zeta in Hroot.
  fold N in Hroot. destruct Hroot as (kf & rd & E & Hl & Hrd & Hlo & Hkf).
  pose proof (iters_spec arr e Hlay) as (_ & _ & _ & Hc).
  exists kf, rd. split_and!; [done|done|done|lia|lia|lia|].
  set (c := Z.to_nat (iters e)) in *. unfold depth_fuel.
  replace 32%nat with (c + S (S (30 - c)))%nat by lia.
  rewrite (while_original_prefix arr) by (done || apply root_invariant; done).
  rewrite E, bind_Done, while_original_S, Hn.
  destruct (decide (kf ≤ N)) as [HkN|HkN].
  - assert (0 ≤ kf) as Hkf0 by lia.
    assert (t e !! Z.to_nat kf = Some (store_val e kf)) as Ea
      by (apply (store_val_lookup arr); [done|fold N; lia]).
    rewrite (vec_get_ok _ _ _ Hkf0 Ea), bind_Done.
    pose proof (b2z_range (bool_decide (store_val e kf < x))) as Hb.
    rewrite int_arith_ok, bind_ret_l, while_original_S, Hn by lia.
    rewrite decide_False by lia. reflexivity.
  - unfold mret, outcome_ret. by rewrite app_nil_r.
Qed.

(** [lower_bound_original] on any built structure. *)
Lemma lower_bound_original_any :
  ∃ r rd,
    lower_bound_original e x = Done r rd
    ∧ 0 ≤ r ≤ N
    ∧ Forall (λ j, 1 ≤ j ≤ N) rd
    ∧ iters e ≤ Z.of_nat (length rd) ≤ iters e + 1.
Proof.
  pose proof (layout_size _ _ Hlay) as Hsz. fold N in Hsz.
  pose proof int_bounds as [Emin Emax].
  destruct while_original_path as (kf & rd & _ & Hl & Hrd & Hkf & Hlo & E).
  pose proof (iters_spec arr e Hlay) as (_ & _ & Hc & _).
  unfold lower_bound_original. rewrite E.
  pose proof (b2z_range (bool_decide (store_val e kf < x))) as Hb.
  destruct (decide (kf ≤ N)) as [HkN|HkN].
  - set (k' := 2 * kf + _) in *.
    exists (restore k'), ((rd ++ [kf]) ++ []).
    pose proof (restore_half k' ltac:(lia)).
    split_and!.
    + by rewrite bind_Done, restore_int_ok by lia.
    + lia.
    + Z.div_mod_to_equations. lia.
    + rewrite app_nil_r. apply Forall_app. split; [done|]. constructor; [lia|done].
    + rewrite app_nil_r, length_app, Hl. cbn. lia.
    + rewrite app_nil_r, length_app, Hl. cbn. lia.
  - exists (restore kf), (rd ++ []).
    pose proof (restore_half kf ltac:(lia)).
    split_and!.
    + by rewrite bind_Done, restore_int_ok by lia.
    + lia.
    + Z.div_mod_to_equations. lia.
    + by rewrite app_nil_r.
    + rewrite app_nil_r, Hl. lia.
    + rewrite app_nil_r, Hl. lia.
Qed.

(** [lower_bound_fixed_iter] on any built structure and any key. *)
Lemma lower_bound_fixed_iter_any :
  ∃ r rd r0 rd0,
    lower_bound_fixed_iter e x = Done r rd
    ∧ lower_bound_original e x = Done r0 rd0
    ∧ Z.of_nat (length rd) = iters e + 1
    ∧ Forall (λ j, 0 ≤ j ≤ N) rd
    ∧ (r = r0 ∨ (x ≤ -1 ∧ N < r ≤ 2 * N + 1)).
Proof.
  pose proof (layout_size4 _ _ Hlay) as Hsz. fold N in Hsz.
  pose proof (layout_n _ _ Hlay) as Hn. fold N in Hn.
  pose proof int_bounds as [Emin Emax].
  destruct while_original_path as (kf & rd & Ef & Hl & Hrd & Hkf & Hlo & E).
  pose proof (iters_spec arr e Hlay) as (_ & _ & Hc & _).
  assert (Forall (λ j, 0 ≤ j ≤ N) rd) as Hrd0.
  { eapply Forall_impl; [exact Hrd|]. cbn. lia. }
  unfold lower_bound_fixed_iter, lower_bound_original. rewrite E, Ef, bind_Done, Hn.
  pose proof (b2z_range (bool_decide (store_val e kf < x))) as Hb.
  destruct (decide (kf ≤ N)) as [HkN|HkN].
  - set (k' := 2 * kf + _) in *.
    assert (0 ≤ kf) as Hkf0 by lia.
    assert (t e !! Z.to_nat kf = Some (store_val e kf)) as Ea
      by (apply (store_val_lookup arr); [done|fold N; lia]).
    pose proof (restore_range k' ltac:(lia)).
    rewrite (vec_get_ok _ _ _ Hkf0 Ea), bind_Done. fold k'.
    rewrite long_arith_ok, bind_ret_l by (apply int_long_range; lia).
    rewrite restore_long_ok, bind_ret_l by lia.
    rewrite to_int_id by lia.
    rewrite bind_Done, restore_int_ok by lia.
    eexists _, _, _, _. split_and!; [reflexivity|reflexivity| | |by left].
    + rewrite !length_app, Hl. cbn [length]. lia.
    + apply Forall_app. split; [done|]. cbn [app]. constructor; [lia|done].
  - assert (0 ≤ 0) as H00 by lia.
    rewrite (vec_get_ok _ _ _ H00 (layout_sentinel _ _ Hlay)), bind_Done.
    pose proof (b2z_range (bool_decide (-1 < x))) as Hb'.
    rewrite long_arith_ok, bind_ret_l by (apply int_long_range; lia).
    rewrite restore_long_ok, bind_ret_l by lia.
    rewrite bind_Done, restore_int_ok by lia.
    eexists _, _, _, _. split_and!; [reflexivity|reflexivity| | |].
    + rewrite !length_app, Hl. cbn [length]. lia.
    + apply Forall_app. split; [done|]. cbn [app]. constructor; [lia|done].
    + destruct (decide (-1 < x)) as [Hx|Hx].
      * left. rewrite bool_decide_eq_true_2 by done. cbn [Z.b2z].
        pose proof (restore_range kf ltac:(lia)).
        rewrite restore_odd by lia. apply to_int_id. lia.
      * right. rewrite bool_decide_eq_false_2 by done. cbn [Z.b2z].
        rewrite Z.add_0_r, restore_even, to_int_id by lia. lia.
Qed.
End any_input.

(** X7. On a structure built from any input of an admissible size (ascending
    or not) and for every key, [lower_bound_original] and
    [lower_bound_prefetch] return without undefined behaviour a value in
    [0..N]; they read only store indices of [1..N], and [iters] or
    [iters + 1] of them. *)
Theorem lower_bound_original_safe (arr : list Z) (e : Eytzinger) (x : Z) :
  size_ok arr → built arr e →
  ∃ r reads,
    lower_bound_original e x = Done r reads
    ∧ lower_bound_prefetch e x = Done r reads
    ∧ 0 ≤ r ≤ Z.of_nat (length arr)
    ∧ Forall (λ j, 1 ≤ j ≤ Z.of_nat (length arr)) reads
    ∧ iters e ≤ Z.of_nat (length reads) ≤ iters e + 1.
Proof.
  intros Hsz Hb. pose proof (built_layout arr e Hsz Hb) as Hlay.
  destruct (lower_bound_original_any arr e Hlay x) as (r & rd & E & Hr & Hrd & Hl).
  exists r, rd. split_and!; try done; try lia.
  rewrite lower_bound_prefetch_original; [done| |];
    rewrite (layout_n _ _ Hlay); [lia|apply (layout_size _ _ Hlay)].
Qed.

Lemma lower_bound_original_safe_witness :
  size_ok [6; 2; 4]
  ∧ built [6; 2; 4] {| t := [-1; 2; 6; 4]; n := 3; iters := 2 |}
  ∧ ∃ r reads,
      lower_bound_original {| t := [-1; 2; 6; 4]; n := 3; iters := 2 |} 5 = Done r reads
      ∧ 0 ≤ r ≤ 3.
Proof.
  assert (size_ok [6; 2; 4]) as Hsz by (by vm_compute).
  assert (built [6; 2; 4] {| t := [-1; 2; 6; 4]; n := 3; iters := 2 |}) as Hb
    by (by exists [0; 1; 2]).
  split_and!; [apply Hsz|apply Hb|].
  destruct (lower_bound_original_safe _ _ 5 Hsz Hb) as (r & rd & E & _ & Hr & _).
  by exists r, rd.
Defined.

(** X8. On a structure built from any input of an admissible size and for
    every key, also the keys [x <= -1], [lower_bound_fixed_iter] and
    [lower_bound_fixed_iter_prefetch] return without undefined behaviour
    after exactly [iters + 1] reads, all inside the store.  Their result is
    the result of [lower_bound_original], except that for a key [x <= -1]
    it can be an index above [N] (at most [2N + 1]) instead. *)
Theorem lower_bound_fixed_iter_safe (arr : list Z) (e : Eytzinger) (x : Z) :
  size_ok arr → built arr e →
  ∃ r reads r0 reads0,
    lower_bound_fixed_iter e x = Done r reads
    ∧ lower_bound_fixed_iter_prefetch e x = Done r reads
    ∧ lower_bound_original e x = Done r0 reads0
    ∧ Z.of_nat (length reads) = iters e + 1
    ∧ Forall (λ j, 0 ≤ j ≤ Z.of_nat (length arr)) reads
    ∧ (r = r0 ∨ (x ≤ -1 ∧ Z.of_nat (length arr) < r ≤ 2 * Z.of_nat (length arr) + 1)).
Proof.
  intros Hsz Hb. pose proof (built_layout arr e Hsz Hb) as Hlay.
  destruct (lower_bound_fixed_iter_any arr e Hlay x)
    as (r & rd & r0 & rd0 & E & E0 & Hl & Hrd & Hr).
  exists r, rd, r0, rd0. split_and!; try done.
  by rewrite (lower_bound_fixed_iter_prefetch_eq arr).
Qed.

Lemma lower_bound_fixed_iter_safe_witness :
  size_ok [2; 4; 6]
  ∧ built [2; 4; 6] {| t := [-1; 4; 2; 6]; n := 3; iters := 2 |}
  ∧ ∃ r reads,
      lower_bound_fixed_iter {| t := [-1; 4; 2; 6]; n := 3; iters := 2 |} (-5)
      = Done r reads
      ∧ Z.of_nat (length reads) = 3.
Proof.
  assert (size_ok [2; 4; 6]) as Hsz by (by vm_compute).
  assert (built [2; 4; 6] {| t := [-1; 4; 2; 6]; n := 3; iters := 2 |}) as Hb
    by (by exists [0; 1; 2]).
  split_and!; [apply Hsz|apply Hb|].
  destruct (lower_bound_fixed_iter_safe _ _ (-5) Hsz Hb)
    as (r & rd & _ & _ & E & _ & _ & Hl & _).
  by exists r, rd.
Defined.

(** ** [lower_bound_original] followed by [get_value] *)

(** X9. On a structure built from an ascending sequence, reading the result
    of [lower_bound_original] back through [get_value] gives the smallest
    element that is not less than [x], or -1 (the sentinel [t[0]]) when
    every element is less than [x]; for a key [x] other than -1 the value
    read back equals [x] exactly when [x] occurs in the sequence. *)
Theorem get_value_of_lower_bound (arr : list Z) (e : Eytzinger) (x : Z) :
  size_ok arr → Sorted Z.le arr → built arr e →
  ∃ r v,
    returns (lower_bound_original e x) r
    ∧ returns (get_value e r) v
    ∧ ((r = 0 ∧ v = -1 ∧ Forall (λ a, a < x) arr)
       ∨ (r ≠ 0 ∧ v ∈ arr ∧ x ≤ v ∧ ∀ a, a ∈ arr → x ≤ a → v ≤ a))
    ∧ (x ≠ -1 → v = x ↔ x ∈ arr).
Proof.
  intros Hsz Hs%ascending_strongly Hb.
  pose proof (built_layout arr e Hsz Hb) as Hlay.
  pose proof (layout_size _ _ Hlay) as HN.
  pose proof (layout_length _ _ Hlay) as Hlen.
  pose proof int_bounds as [Emin Emax].
  destruct (lower_bound_original_index arr e Hlay x Hs) as (rd & E & _).
  pose proof (rank_range x arr) as Hr.
  set (N := Z.of_nat (length arr)) in *. set (q := rank arr x) in *.
  assert (∀ a, a ∈ arr → a < x ∨ x ≤ a) as Hcase by (intros; lia).
  destruct (decide (q < N)) as [Hlt|Hge].
  - destruct (eytzinger_index_inside arr e q Hlay) as [Hk Ht]; [fold N; lia|].
    fold N in Hk, Ht. set (k := eytzinger_index N q) in *.
    destruct (lookup_lt_is_Some_2 arr (Z.to_nat q)) as [v Ev]; [lia|].
    assert (x ≤ v) as Hxv.
    { pose proof (rank_lt_iff x arr _ v Hs Ev) as Hiff. fold q in Hiff. lia. }
    assert (∀ a, a ∈ arr → x ≤ a → v ≤ a) as Hmin.
    { intros a [j Ej]%list_elem_of_lookup_1 Hxa.
      destruct (decide (v ≤ a)) as [|Hva]; [done|].
      pose proof (rank_lt_iff v arr _ a Hs Ej) as Hj.
      pose proof (rank_lt_iff v arr _ v Hs Ev) as Hq.
      pose proof (rank_lt_iff x arr _ a Hs Ej) as Hjx. fold q in Hjx. lia. }
    exists k, v. split_and!.
    + by exists rd.
    + exists [k]. unfold get_value, to_size_t.
      rewrite Z.mod_small, decide_True by lia. apply vec_get_ok; [lia|].
      by rewrite Ht.
    + right. split_and!; [lia|by eapply list_elem_of_lookup_2|done|done].
    + intros _. split.
      * intros <-. by eapply list_elem_of_lookup_2.
      * intros Hin. specialize (Hmin x Hin). lia.
  - assert (q = N) as Eq by lia.
    assert (Forall (λ a, a < x) arr) as Hall by (by apply rank_full).
    exists 0, (-1). split_and!.
    + exists rd. by rewrite E, eytzinger_index_past by lia.
    + exists [0]. unfold get_value, to_size_t.
      rewrite Z.mod_small, decide_True by lia. apply vec_get_ok; [lia|].
      apply (layout_sentinel _ _ Hlay).
    + by left.
    + intros Hx. split; [lia|]. intros Hin.
      rewrite Forall_forall in Hall. specialize (Hall x Hin). lia.
Qed.

Lemma get_value_of_lower_bound_witness :
  size_ok [1; 3; 5; 7; 9; 11] ∧ Sorted Z.le [1; 3; 5; 7; 9; 11]
  ∧ built [1; 3; 5; 7; 9; 11] {| t := [-1; 7; 3; 11; 1; 5; 9]; n := 6; iters := 2 |}
  ∧ ∃ r v,
      returns (lower_bound_original
                 {| t := [-1; 7; 3; 11; 1; 5; 9]; n := 6; iters := 2 |} 6) r
      ∧ returns (get_value {| t := [-1; 7; 3; 11; 1; 5; 9]; n := 6; iters := 2 |} r) v
      ∧ (6 ≠ -1 → v = 6 ↔ 6 ∈ [1; 3; 5; 7; 9; 11]).
Proof.
  assert (size_ok [1; 3; 5; 7; 9; 11]) as Hsz by (by vm_compute).
  assert (Sorted Z.le [1; 3; 5; 7; 9; 11]) as Hs by (repeat constructor; lia).
  assert (built [1; 3; 5; 7; 9; 11]
            {| t := [-1; 7; 3; 11; 1; 5; 9]; n := 6; iters := 2 |}) as Hb
    by (by exists [0; 1; 2; 3; 4; 5]).
  split_and!; [apply Hsz|apply Hs|apply Hb|].
  destruct (get_value_of_lower_bound _ _ 6 Hsz Hs Hb) as (r & v & ? & ? & _ & ?).
  by exists r, v.
Defined.

(** ** The reference searches on any input *)

Section reference_any.
Context (arr : list Z) (x : Z).
Let N : Z := Z.of_nat (length arr).

(** The loop of [naive_binary_search] keeps an element below [x] at [low]
    and none at [high]. *)
Lemma while_naive_boundary fuel low high :
  2 * N ≤ INT_MAX →
  0 ≤ low < high → high ≤ N → below arr x low → not_below arr x high →
  high - low ≤ 2 ^ Z.of_nat fuel →
  ∃ r, returns (while_naive (S fuel) arr x low high) r
       ∧ low < r ≤ high ∧ below arr x (r - 1) ∧ not_below arr x r.
Proof.
  intros HN. pose proof int_bounds as [Emin Emax].
  revert low high. induction fuel as [|f IH];
    intros low high Hlo Hhi Hbl Hnb Hgap;
    rewrite while_naive_S, (int_arith_ok (high - low)), bind_ret_l by lia;
    destruct (decide (high - low > 1)) as [Hgt|Hle].
  - change (2 ^ Z.of_nat 0) with 1 in Hgap. lia.
  - exists high. split_and!; [by exists []|lia|lia| |done].
    by replace (high - 1) with low by lia.
  - rewrite pow2_S in Hgap.
    rewrite (int_arith_ok (high + low)), bind_ret_l by lia. cbv zeta.
    set (mid := (high + low) `quot` 2).
    assert (low < mid < high ∧ high - mid ≤ 2 ^ Z.of_nat f ∧ mid - low ≤ 2 ^ Z.of_nat f)
      as (Hmid & Hg1 & Hg2) by (unfold mid; Z.quot_rem_to_equations; lia).
    destruct (lookup_lt_is_Some_2 arr (Z.to_nat mid)) as [a Ea]; [lia|].
    rewrite (vec_get_ok arr mid a) by (done || lia). rewrite bind_Done.
    destruct (decide (a < x)) as [Hlt|Hge].
    + destruct (IH mid high) as (r & [rd ->] & ? & ? & ?);
        [lia|lia|by exists a|done|lia|].
      exists r. split_and!; [by eexists|lia|lia|done|done].
    + destruct (IH low mid) as (r & [rd ->] & ? & ? & ?);
        [lia|lia|done| |lia|].
      { intros a' Ea'. rewrite Ea in Ea'. injection Ea' as <-. lia. }
      exists r. split_and!; [by eexists|lia|lia|done|done].
  - exists high. split_and!; [by exists []|lia|lia| |done].
    by replace (high - 1) with low by lia.
Qed.

Lemma naive_binary_search_boundary :
  2 * N ≤ INT_MAX → ∃ r, returns (naive_binary_search arr x) r ∧ boundary arr x r.
Proof.
  intros HN. pose proof int_bounds as [Emin Emax].
  rewrite naive_binary_search_unfold. destruct (decide (arr = [])) as [Earr|Earr].
  - exists 0. split; [by exists []|]. unfold boundary. rewrite Earr.
    split_and!; [done|cbn; lia|lia|done].
  - assert (0 < N) as HN0 by (unfold N; destruct arr; [done|cbn; lia]).
    destruct (lookup_lt_is_Some_2 arr (Z.to_nat 0)) as [a Ea]; [lia|].
    rewrite (vec_get_ok arr 0 a) by done. rewrite bind_Done.
    destruct (decide (a >= x)) as [Hge|Hlt].
    + exists 0. split; [by eexists|]. unfold boundary. fold N.
      split_and!; [lia|lia|lia|]. intros a' Ea'. rewrite Ea in Ea'.
      injection Ea' as <-. lia.
    + fold N. rewrite to_int_id by lia. unfold depth_fuel.
      destruct (while_naive_boundary 31 0 N) as (r & [rd ->] & Hr & Hbl & Hnb);
        [lia|lia|lia|exists a; split; [done|lia]| | |].
      { intros a' Ea'. apply lookup_lt_Some in Ea'. lia. }
      { change (2 ^ Z.of_nat 31) with (2 ^ 31). lia. }
      exists r. split; [by eexists|]. unfold boundary. fold N.
      split_and!; [lia|lia|done|done].
Qed.

(** The bisection of [std::lower_bound] keeps an element below [x] before
    [first] and none at [first + len]. *)
Lemma std_lower_bound_loop_boundary fuel first len :
  0 ≤ first → 0 ≤ len → first + len ≤ N →
  (0 < first → below arr x (first - 1)) → not_below arr x (first + len) →
  len < 2 ^ Z.of_nat fuel →
  ∃ r, returns (std_lower_bound_loop (S fuel) arr x first len) r
       ∧ first ≤ r ≤ first + len ∧ (0 < r → below arr x (r - 1)) ∧ not_below arr x r.
Proof.
  revert first len. induction fuel as [|f IH];
    intros first len Hfi Hlen HN Hbl Hnb Hfuel;
    rewrite std_lower_bound_loop_S;
    destruct (decide (len > 0)) as [Hgt|Hle].
  - change (2 ^ Z.of_nat 0) with 1 in Hfuel. lia.
  - exists first. assert (len = 0) as -> by lia. rewrite Z.add_0_r in Hnb.
    split_and!; [by exists []|lia|lia|done|done].
  - rewrite pow2_S in Hfuel. cbv zeta.
    rewrite Z.shiftr_div_pow2 by lia. change (2 ^ 1) with 2.
    set (half := len `div` 2).
    assert (0 ≤ half < len ∧ half < 2 ^ Z.of_nat f ∧ len - half - 1 < 2 ^ Z.of_nat f)
      as (Hh & Hf1 & Hf2) by (unfold half; Z.div_mod_to_equations; lia).
    destruct (lookup_lt_is_Some_2 arr (Z.to_nat (first + half))) as [a Ea]; [lia|].
    rewrite (vec_get_ok arr (first + half) a) by (done || lia). rewrite bind_Done.
    destruct (decide (a < x)) as [Hlt|Hge].
    + destruct (IH (first + half + 1) (len - half - 1)) as (r & [rd ->] & ? & ? & ?);
        [lia|lia|lia| | |lia|].
      { intros _. replace (first + half + 1 - 1) with (first + half) by lia.
        by exists a. }
      { by replace (first + half + 1 + (len - half - 1)) with (first + len) by lia. }
      exists r. split_and!; [by eexists|lia|lia|done|done].
    + destruct (IH first half) as (r & [rd ->] & ? & ? & ?);
        [lia|lia|lia|done| |lia|].
      { intros a' Ea'. rewrite Ea in Ea'. injection Ea' as <-. lia. }
      exists r. split_and!; [by eexists|lia|lia|done|done].
  - exists first. assert (len = 0) as -> by lia. rewrite Z.add_0_r in Hnb.
    split_and!; [by exists []|lia|lia|done|done].
Qed.

Lemma std_lower_bound_boundary :
  N ≤ INT_MAX → ∃ r, returns (std_lower_bound arr x) r ∧ boundary arr x r.
Proof.
  intros HN. pose proof int_bounds as [Emin Emax].
  assert (0 ≤ N) as HN0 by (unfold N; lia).
  destruct (std_lower_bound_loop_boundary 63 0 N) as (r & [rd E] & Hr & Hbl & Hnb);
    [lia|lia|lia|lia| | |].
  { intros a' Ea'. apply lookup_lt_Some in Ea'. lia. }
  { change (2 ^ Z.of_nat 63) with (2 ^ 63). lia. }
  exists r. split.
  - eexists. unfold std_lower_bound. fold N.
    eapply bind_Done_eq; [exact E|]. by rewrite to_int_id by lia.
  - unfold boundary. fold N. split_and!; [lia|lia|done|done].
Qed.
End reference_any.

(** X10. On any sequence of an admissible size, ascending or not, and for
    every key, [naive_binary_search] and [std_lower_bound] return without
    reading outside the sequence, and each returns a boundary of the
    sequence for [x]: a position [r] of [0..N] such that the element before
    it (if [r > 0]) is less than [x] and the element at it (if [r < N]) is
    not. *)
Theorem reference_searches_find_a_boundary (arr : list Z) (x : Z) :
  size_ok arr →
  (∃ r, returns (naive_binary_search arr x) r ∧ boundary arr x r)
  ∧ (∃ r, returns (std_lower_bound arr x) r ∧ boundary arr x r).
Proof.
  unfold size_ok. intros Hsz. split.
  - apply naive_binary_search_boundary. lia.
  - apply std_lower_bound_boundary. lia.
Qed.

Lemma reference_searches_find_a_boundary_witness :
  size_ok [5; 1; 4; 2]
  ∧ ∃ r, returns (naive_binary_search [5; 1; 4; 2] 3) r ∧ boundary [5; 1; 4; 2] 3 r.
Proof.
  assert (size_ok [5; 1; 4; 2]) as Hsz by (by vm_compute).
  split; [apply Hsz|].
  by destruct (reference_searches_find_a_boundary [5; 1; 4; 2] 3 Hsz) as [H _].
Defined.
